(** * server.js: request dispatch, delivery scheduling and session state

    A shallow embedding of [src/server.js].  The Express handlers, the
    socket.io handlers and the handlers of the messaging client's events
    are functions on an explicit server state; [setTimeout] adds to a list
    of pending timers that an event loop fires later; calls into the
    messaging client, the QR encoder and the file system are recorded in a
    trace of observable events.

    Conventions.  A JavaScript string is a [string]: the only operation on
    characters in the source is the test for ASCII digits, which no
    character above 127 passes in any encoding.  A JavaScript number is an
    integer of [Z] (milliseconds, page numbers).  A field that a request
    may lack is an [option]; the fields that are there have the types of
    the wire format.  A timer is due after the delay that Node gives it
    (1 ms for a delay below 1 or above 2147483647) and the loop fires the
    earliest due timer, at its due time.  An HTTP or socket handler runs to
    completion, the outcome of each awaited call being given by the
    external collaborators.  What a timer callback does after its [await],
    and what the callback of the QR encoder does, is a turn of its own that
    comes whenever the promise settles: the calls still waiting are kept in
    the state.  The restart of the client (destroy, then initialize or the
    log of the error) is one step. *)

From stdpp Require Import gmap strings list fin_maps.
From Stdlib Require Import ZArith Ascii Lia.
From Stdlib Require List String.

Local Open Scope Z_scope.

(** ** JavaScript strings and arrays *)

Module Js.

(** [\D] (no [u] flag) matches every code unit but the ten ASCII digits. *)
Definition is_digit (c : ascii) : bool :=
  let n := nat_of_ascii c in (48 <=? n)%nat && (n <=? 57)%nat.

(** [s.replace(/\D/g, empty)]: every non-digit is deleted, digits keep
    their order. *)
Fixpoint strip_non_digits (s : string) : string :=
  match s with
  | EmptyString => EmptyString
  | String c r =>
      if is_digit c then String c (strip_non_digits r) else strip_non_digits r
  end.

(** [!s] for a string: only the empty string is falsy. *)
Definition truthy_string (s : string) : bool :=
  match s with EmptyString => false | String _ _ => true end.

(** [!n] for a number: only zero is falsy (NaN is outside the model). *)
Definition truthy_number (n : Z) : bool := negb (n =? 0).

(** [!x] for a field that may be missing from the body. *)
Definition truthy_opt {A} (f : A → bool) (o : option A) : bool :=
  match o with Some a => f a | None => false end.

(** [Array.prototype.slice(start, end)]: a negative index counts from the
    end, both indices are clamped to the array, an empty range gives []. *)
Definition clamp_index (len i : Z) : Z :=
  if i <? 0 then Z.max (len + i) 0 else Z.min i len.

Definition slice {A} (start stop : Z) (l : list A) : list A :=
  let len := Z.of_nat (List.length l) in
  let k := clamp_index len start in
  let final := clamp_index len stop in
  take (Z.to_nat (final - k)) (drop (Z.to_nat k) l).

(** The longest delay a Node timer takes, [2^31 - 1] ms. *)
Definition TIMEOUT_MAX : Z := 2147483647.

(** The delay Node gives a timer: [setTimeout(f, after)] sets [after] to 1
    unless [1 <= after <= TIMEOUT_MAX]. *)
Definition timeout_delay (after : Z) : Z :=
  if (1 <=? after) && (after <=? TIMEOUT_MAX) then after else 1.

End Js.

Arguments Js.is_digit : simpl never.

(** ** Recipient addresses *)

Definition domain_suffix : string := "@c.us".

(** [num => num.replace(/\D/g, empty) + "@c.us"] *)
Definition normalize (num : string) : string :=
  Js.strip_non_digits num +:+ domain_suffix.

(** The local part of a normalized address: what precedes the suffix. *)
Definition local_part (num : string) : string := Js.strip_non_digits num.

(** ** Data exchanged with the messaging client and the callers *)

(** The outcome of an awaited call: the promise resolves with a value or
    rejects with an error whose [message] is kept. *)
Inductive Result (A : Type) : Type :=
  | Ok (a : A)
  | Err (msg : string).
Arguments Ok {A} a.
Arguments Err {A} msg.

Module Contact.
Record t := { isUser : bool; name : option string; number : string }.
End Contact.

Module Chat.
Record t := { isGroup : bool; name : string; id_serialized : string }.
End Chat.

(** [{ name, number }] as sent back by [getContacts]. *)
Record ContactSummary := { cs_name : string; cs_number : string }.

(** The second argument of [client.sendMessage]: a text, or a media object
    with its [{ caption }] option. *)
Inductive Payload :=
  | Text (message : string)
  | Media (data : string) (caption : option string).

(** Argument of a socket.io event. *)
Inductive Arg :=
  | NoArg
  | StrArg (s : string)
  | ContactsArg (l : list ContactSummary).

(** JSON bodies of the HTTP responses. *)
Inductive Body :=
  | BodyError (error : string)
  | BodySuccess (message : string)
  | BodyGroups (groups : list string).

(** The lines written with [console.log] and [console.error]. *)
Inductive LogLine :=
  | LogScanQr
  | LogSocketConnected
  | LogSocketDisconnected
  | LogContactsError (err : string)
  | LogReady
  | LogAuthFailed
  | LogClientError (err : string)
  | LogSending (numbers : list string)
  | LogSent (number : string)
  | LogScheduledSent (number : string)
  | LogFailed (number err : string)
  | LogGroupError (err : string)
  | LogMediaError (err : string)
  | LogRestarting
  | LogRestartError (err : string)
  | LogDisconnected (reason : string).

(** Observable effects, in the order the server performs them. *)
Inductive Event :=
  | Log (l : LogLine)
  | IoEmit (event : string) (arg : Arg)
  | SocketEmit (socket : nat) (event : string) (arg : Arg)
  | Response (status : Z) (body : Body)
  | SendMessage (chatId : string) (content : Payload)
  | ClientDestroy
  | ClientInitialize.

(** What a timer does when it fires: the three callbacks handed to
    [setTimeout] in the source. *)
Inductive Job :=
  | JobSendOne (number message : string)
  | JobSendAll (numbers : list string) (message : string)
  | JobRestart.

(** A pending [setTimeout(job, delay)] registered at time [set_at]. *)
Record Timer := { set_at : Z; delay : Z; job : Job }.

(** The time at which the timer is due. *)
Definition due (t : Timer) : Z := set_at t + Js.timeout_delay (delay t).

(** Which of the two timer callbacks awaits a send: it decides the line
    logged when the send resolves. *)
Inductive SendKind := Immediate | Scheduled.

(** A call that was started and whose callback has not run yet:
    [qrcode.toDataURL(qr, callback)], or the [client.sendMessage] that a
    timer callback awaits. *)
Inductive Pending :=
  | PendingQr (qr : string)
  | PendingSend (kind : SendKind) (number message : string).

(** ** Server state *)

Record State := {
  now : Z;
  clientConnected : bool;
  qrGenerated : bool;
  sockets : list nat;
  files : gmap string string;
  pending : list Timer;
  inflight : list Pending;
  trace : list (Z * Event)
}.

Definition initial_state (t0 : Z) : State :=
  {| now := t0; clientConnected := false; qrGenerated := false;
     sockets := []; files := ∅; pending := []; inflight := []; trace := [] |}.

Definition set_now (t : Z) (st : State) : State :=
  {| now := t; clientConnected := clientConnected st;
     qrGenerated := qrGenerated st; sockets := sockets st;
     files := files st; pending := pending st; inflight := inflight st;
     trace := trace st |}.

Definition set_clientConnected (b : bool) (st : State) : State :=
  {| now := now st; clientConnected := b;
     qrGenerated := qrGenerated st; sockets := sockets st;
     files := files st; pending := pending st; inflight := inflight st;
     trace := trace st |}.

Definition set_qrGenerated (b : bool) (st : State) : State :=
  {| now := now st; clientConnected := clientConnected st;
     qrGenerated := b; sockets := sockets st;
     files := files st; pending := pending st; inflight := inflight st;
     trace := trace st |}.

Definition set_sockets (l : list nat) (st : State) : State :=
  {| now := now st; clientConnected := clientConnected st;
     qrGenerated := qrGenerated st; sockets := l;
     files := files st; pending := pending st; inflight := inflight st;
     trace := trace st |}.

Definition set_files (m : gmap string string) (st : State) : State :=
  {| now := now st; clientConnected := clientConnected st;
     qrGenerated := qrGenerated st; sockets := sockets st;
     files := m; pending := pending st; inflight := inflight st;
     trace := trace st |}.

Definition set_pending (l : list Timer) (st : State) : State :=
  {| now := now st; clientConnected := clientConnected st;
     qrGenerated := qrGenerated st; sockets := sockets st;
     files := files st; pending := l; inflight := inflight st;
     trace := trace st |}.

Definition set_trace (l : list (Z * Event)) (st : State) : State :=
  {| now := now st; clientConnected := clientConnected st;
     qrGenerated := qrGenerated st; sockets := sockets st;
     files := files st; pending := pending st; inflight := inflight st;
     trace := l |}.

Definition set_inflight (l : list Pending) (st : State) : State :=
  {| now := now st; clientConnected := clientConnected st;
     qrGenerated := qrGenerated st; sockets := sockets st;
     files := files st; pending := pending st; inflight := l;
     trace := trace st |}.

(** ** Handlers as computations on the state that may throw *)

Definition M (A : Type) : Type := State → Result A * State.

#[global] Instance M_ret : MRet M := λ A a st, (Ok a, st).

#[global] Instance M_bind : MBind M := λ A B k m st,
  match m st with
  | (Ok a, st') => k a st'
  | (Err e, st') => (Err e, st')
  end.

(** [try { m } catch (err) { h err.message }] *)
Definition try_catch {A} (m : M A) (h : string → M A) : M A :=
  λ st, match m st with
        | (Ok a, st') => (Ok a, st')
        | (Err e, st') => h e st'
        end.

(** [await p] for a promise that settles as [r]. *)
Definition await {A} (r : Result A) : M A := λ st, (r, st).

Definition get : M State := λ st, (Ok st, st).

Definition modify (f : State → State) : M unit := λ st, (Ok tt, f st).

(** The state a handler leaves behind. *)
Definition exec {A} (m : M A) (st : State) : State := snd (m st).

Definition emit (e : Event) : M unit :=
  modify (λ st, set_trace (trace st ++ [(now st, e)]) st).

Definition console_log (l : LogLine) : M unit := emit (Log l).

Definition io_emit (event : string) (arg : Arg) : M unit :=
  emit (IoEmit event arg).

Definition socket_emit (socket : nat) (event : string) (arg : Arg) : M unit :=
  emit (SocketEmit socket event arg).

(** [res.status(code).json(body)] *)
Definition res_json (status : Z) (body : Body) : M unit :=
  emit (Response status body).

(** [setTimeout(job, delay)]: the timer is queued with the delay it was
    given and the time of the call. *)
Definition setTimeout (j : Job) (d : Z) : M unit :=
  modify (λ st, set_pending
    (pending st ++ [{| set_at := now st; delay := d; job := j |}]) st).

(** A call is started; its callback will run in a later turn. *)
Definition start (p : Pending) : M unit :=
  modify (λ st, set_inflight (inflight st ++ [p]) st).

(** [l.forEach((x, index) => f index x)], counting from [i]. *)
Fixpoint forEach_from {A} (i : nat) (f : nat → A → M unit) (l : list A) : M unit :=
  match l with
  | [] => mret tt
  | x :: r => f i x;; forEach_from (S i) f r
  end.

Definition forEach {A} (f : nat → A → M unit) (l : list A) : M unit :=
  forEach_from 0 f l.

(** [MessageMedia.fromFilePath(path)] reads the file or throws. *)
Definition fromFilePath (path : string) : M string :=
  λ st, match files st !! path with
        | Some data => (Ok data, st)
        | None => (Err "ENOENT: no such file or directory", st)
        end.

(** [fs.unlinkSync(path)] removes the file or throws. *)
Definition unlinkSync (path : string) : M unit :=
  λ st, match files st !! path with
        | Some _ => (Ok tt, set_files (delete path (files st)) st)
        | None => (Err "ENOENT: no such file or directory", st)
        end.

(** ** The external collaborators *)

(** What the messaging client, the QR encoder and the JavaScript runtime
    answer; the server only calls them. *)
Record External := {
  toLowerCase : string → string;
  toDataURL : string → Result string;
  getContacts : Result (list Contact.t);
  getChats : Result (list Chat.t);
  getNumberId : string → Result (option string);
  sendMessage : string → Payload → Result unit;
  destroy : Result unit
}.

(** ** Request bodies *)

(** A field that the JSON body may lack is an [option]. *)
Module SendReq.
Record t := {
  numbers : option (list string);
  message : option string;
  delay : option Z
}.
End SendReq.

Module ScheduleReq.
Record t := {
  numbers : option (list string);
  message : option string;
  timestamp : option Z
}.
End ScheduleReq.

Module GroupReq.
Record t := { groupName : option string; message : option string }.
End GroupReq.

(** The multipart request of /send-media: the uploaded part, if any, with
    its original file name and its bytes. *)
Module MediaReq.
Record upload := { originalname : string; data : string }.
Record t := {
  file : option upload;
  number : option string;
  caption : option string
}.
End MediaReq.

(** ** The handlers *)

Section Handlers.

Variable ext : External.

(** [client.sendMessage(chatId, content)]: the call is observable, its
    promise settles as the client decides. *)
Definition client_sendMessage (chatId : string) (content : Payload) : M unit :=
  emit (SendMessage chatId content);;
  await (sendMessage ext chatId content).

(** [client.on("qr", ...)]: the offer is dropped or taken; when taken the
    encoding is started, its callback comes later. *)
Definition on_qr (qr : string) : M unit :=
  st ← get;
  if clientConnected st || qrGenerated st then mret tt
  else
    modify (set_qrGenerated true);;
    console_log LogScanQr;;
    start (PendingQr qr).

(** [(err, url) => { if (!err) io.emit("qr", url); }], the callback of
    [qrcode.toDataURL]: it looks at no flag. *)
Definition qr_encoded (qr : string) : M unit :=
  match toDataURL ext qr with
  | Ok url => io_emit "qr" (StrArg url)
  | Err _ => mret tt
  end.

(** [io.on("connection", ...)] *)
Definition on_connection (socket : nat) : M unit :=
  modify (λ st, set_sockets (sockets st ++ [socket]) st);;
  console_log LogSocketConnected.

(** [socket.on("disconnect", ...)] *)
Definition on_socket_disconnect (socket : nat) : M unit :=
  modify (λ st, set_sockets (List.filter (λ s, negb (s =? socket)%nat) (sockets st)) st);;
  console_log LogSocketDisconnected.

(** [c => ({ name: c.name || "Unknown", number: c.number })] *)
Definition contact_summary (c : Contact.t) : ContactSummary :=
  {| cs_name := if Js.truthy_opt Js.truthy_string (Contact.name c)
                then default EmptyString (Contact.name c) else "Unknown";
     cs_number := Contact.number c |}.

(** The page of contacts computed by the [getContacts] handler. *)
Definition listContacts (page pageSize : Z) (contacts : list Contact.t)
  : list ContactSummary :=
  map contact_summary
    (Js.slice ((page - 1) * pageSize) (page * pageSize)
       (List.filter Contact.isUser contacts)).

(** [socket.on("getContacts", ...)] *)
Definition on_getContacts (socket : nat) (page pageSize : Z) : M unit :=
  try_catch
    (contacts ← await (getContacts ext);
     socket_emit socket "contactsList"
       (ContactsArg (listContacts page pageSize contacts)))
    (λ err,
       console_log (LogContactsError err);;
       socket_emit socket "error" (StrArg "Failed to fetch contacts")).

(** [client.on("ready", ...)] *)
Definition on_ready : M unit :=
  console_log LogReady;;
  modify (set_clientConnected true);;
  io_emit "ready" NoArg.

(** [client.on("auth_failure", ...)] *)
Definition on_auth_failure : M unit :=
  console_log LogAuthFailed;;
  io_emit "auth_failure" NoArg;;
  modify (set_clientConnected false);;
  modify (set_qrGenerated false).

(** [client.on("error", ...)] *)
Definition on_error (error : string) : M unit :=
  console_log (LogClientError error);;
  io_emit "error" (StrArg "WhatsApp client encountered an issue.");;
  modify (set_clientConnected false);;
  modify (set_qrGenerated false).

(** [client.on("disconnected", ...)] *)
Definition on_disconnected (reason : string) : M unit :=
  console_log (LogDisconnected reason);;
  modify (set_clientConnected false);;
  modify (set_qrGenerated false);;
  setTimeout JobRestart 5000.

(** [app.post("/send", ...)] *)
Definition post_send (body : SendReq.t) : M unit :=
  let numbers := SendReq.numbers body in
  let message := SendReq.message body in
  let delay := default 1000 (SendReq.delay body) in
  if negb (Js.truthy_opt (λ _, true) numbers)
     || negb (Js.truthy_opt Js.truthy_string message)
  then res_json 400 (BodyError "Missing parameters")
  else
    let formattedNumbers := map normalize (default [] numbers) in
    console_log (LogSending formattedNumbers);;
    forEach (λ index number,
               setTimeout (JobSendOne number (default EmptyString message))
                          (Z.of_nat index * delay))
            formattedNumbers;;
    res_json 200 (BodySuccess "Messages are being sent.").

(** [app.get("/list-groups", ...)] *)
Definition get_list_groups : M unit :=
  try_catch
    (chats ← await (getChats ext);
     res_json 200 (BodyGroups (map Chat.name (List.filter Chat.isGroup chats))))
    (λ err, res_json 500 (BodyError err)).

(** [chat => chat.isGroup && chat.name.toLowerCase() === groupName.toLowerCase()] *)
Definition group_matches (groupName : string) (chat : Chat.t) : bool :=
  Chat.isGroup chat
  && bool_decide (toLowerCase ext (Chat.name chat) = toLowerCase ext groupName).

(** [app.post("/send-group", ...)] *)
Definition post_send_group (body : GroupReq.t) : M unit :=
  let groupName := GroupReq.groupName body in
  let message := GroupReq.message body in
  if negb (Js.truthy_opt Js.truthy_string groupName)
     || negb (Js.truthy_opt Js.truthy_string message)
  then res_json 400 (BodyError "Group name and message required")
  else
    let groupName := default EmptyString groupName in
    try_catch
      (chats ← await (getChats ext);
       match List.find (group_matches groupName) chats with
       | None =>
           res_json 404 (BodyError ("Group '" +:+ groupName +:+ "' not found"))
       | Some group =>
           client_sendMessage (Chat.id_serialized group)
                              (Text (default EmptyString message));;
           res_json 200 (BodySuccess ("Message sent to " +:+ groupName))
       end)
      (λ err,
         console_log (LogGroupError err);;
         res_json 500 (BodyError err)).

(** The multer disk storage: the uploaded part is written under
    ["uploads/"] with its original name before the handler runs. *)
Definition upload_path (u : MediaReq.upload) : string :=
  "uploads/" +:+ MediaReq.originalname u.

Definition upload_single (req : MediaReq.t) : M unit :=
  match MediaReq.file req with
  | Some u =>
      modify (λ st, set_files (<[upload_path u := MediaReq.data u]> (files st)) st)
  | None => mret tt
  end.

(** The handler of /send-media, after the upload middleware. *)
Definition send_media_handler (req : MediaReq.t) : M unit :=
  let number := MediaReq.number req in
  let caption := MediaReq.caption req in
  match MediaReq.file req with
  | Some u =>
      if negb (Js.truthy_opt Js.truthy_string number)
      then res_json 400 (BodyError "Number and media file required")
      else
        let path := upload_path u in
        try_catch
          (formattedNumber ←
             await (getNumberId ext (default EmptyString number));
           match formattedNumber with
           | None => res_json 400 (BodyError "Invalid WhatsApp number")
           | Some serialized =>
               media ← fromFilePath path;
               client_sendMessage serialized (Media media caption);;
               unlinkSync path;;
               res_json 200 (BodySuccess "Media sent successfully.")
           end)
          (λ err,
             console_log (LogMediaError err);;
             res_json 500 (BodyError err))
  | None => res_json 400 (BodyError "Number and media file required")
  end.

(** [app.post("/send-media", upload.single("media"), ...)] *)
Definition post_send_media (req : MediaReq.t) : M unit :=
  upload_single req;;
  send_media_handler req.

(** [app.post("/schedule", ...)] *)
Definition post_schedule (body : ScheduleReq.t) : M unit :=
  let numbers := ScheduleReq.numbers body in
  let message := ScheduleReq.message body in
  let timestamp := ScheduleReq.timestamp body in
  if negb (Js.truthy_opt (λ _, true) numbers)
     || negb (Js.truthy_opt Js.truthy_string message)
     || negb (Js.truthy_opt Js.truthy_number timestamp)
  then res_json 400 (BodyError "Missing parameters")
  else
    st ← get;
    let delay := default 0 timestamp - now st in
    if delay <=? 0 then res_json 400 (BodyError "Invalid timestamp")
    else
      let formattedNumbers := map normalize (default [] numbers) in
      setTimeout (JobSendAll formattedNumbers (default EmptyString message)) delay;;
      res_json 200 (BodySuccess "Message scheduled successfully.").

(** [restartClient]: the client is destroyed and, once that promise
    resolves, initialized again; a rejection is logged. *)
Definition restartClient : M unit :=
  console_log LogRestarting;;
  emit ClientDestroy;;
  match destroy ext with
  | Ok _ => emit ClientInitialize
  | Err e => console_log (LogRestartError e)
  end.

(** ** The event loop *)

(** The callback of a timer, up to its [await]: the send is called and
    left waiting.  In [JobSendAll] the [async] callbacks of [forEach] each
    run up to their [await], one after the other. *)
Definition fire (j : Job) : M unit :=
  match j with
  | JobSendOne number message =>
      emit (SendMessage number (Text message));;
      start (PendingSend Immediate number message)
  | JobSendAll numbers message =>
      forEach (λ _ number,
                 emit (SendMessage number (Text message));;
                 start (PendingSend Scheduled number message)) numbers
  | JobRestart => restartClient
  end.

(** The rest of a timer callback, once the awaited send has settled:
    [try { await ...; console.log(sent) } catch (err) { console.log(failed) }]. *)
Definition send_settled (kind : SendKind) (number message : string) : M unit :=
  try_catch
    (await (sendMessage ext number (Text message));;
     console_log (match kind with
                  | Immediate => LogSent number
                  | Scheduled => LogScheduledSent number
                  end))
    (λ err, console_log (LogFailed number err)).

(** The callback of a call that was waiting. *)
Definition callback (p : Pending) : M unit :=
  match p with
  | PendingQr qr => qr_encoded qr
  | PendingSend kind number message => send_settled kind number message
  end.

(** The [k]-th waiting call completes and its callback runs. *)
Definition complete (k : nat) (st : State) : State :=
  match inflight st !! k with
  | Some p => exec (callback p) (set_inflight (delete k (inflight st)) st)
  | None => st
  end.

(** The timer that fires next: the earliest due one, and among timers due
    at the same time the one registered first. *)
Fixpoint pick (ts : list Timer) : option (Timer * list Timer) :=
  match ts with
  | [] => None
  | t :: r =>
      match pick r with
      | None => Some (t, [])
      | Some (u, r') =>
          if due t <=? due u then Some (t, r) else Some (u, t :: r')
      end
  end.

(** One timer fires: the clock reaches the due time of the next timer and
    its callback runs up to its [await]. *)
Definition tick (st : State) : State :=
  match pick (pending st) with
  | None => st
  | Some (t, rest) =>
      exec (fire (job t)) (set_pending rest (set_now (Z.max (now st) (due t)) st))
  end.

Fixpoint run (n : nat) (st : State) : State :=
  match n with
  | O => st
  | S n' => run n' (tick st)
  end.

(** The line logged for one send of the /schedule path. *)
Definition send_all_log (number message : string) : LogLine :=
  match sendMessage ext number (Text message) with
  | Ok _ => LogScheduledSent number
  | Err e => LogFailed number e
  end.

(** The line logged for one send of the /send path, as [fire] decides it. *)
Definition send_one_log (number message : string) : LogLine :=
  match sendMessage ext number (Text message) with
  | Ok _ => LogSent number
  | Err e => LogFailed number e
  end.

End Handlers.

(** The timers an accepted /send request registers at time [t0] with
    spacing [s]: one per recipient, the [i]-th delayed by [i * s]. *)
Definition send_timers (t0 s : Z) (msg : string) (ns : list string) : list Timer :=
  imap (λ i num, {| set_at := t0; delay := Z.of_nat i * s;
                    job := JobSendOne (normalize num) msg |}) ns.

(** Computations that only add to the trace. *)
Definition grows {A} (m : M A) : Prop :=
  ∀ st, ∃ tail, trace (m st).2 = trace st ++ tail.

(** The [sendMessage] calls of a trace, with the time of each. *)
Definition attempts (tr : list (Z * Event)) : list (Z * string * Payload) :=
  omap (λ te, match te.2 with
              | SendMessage chatId content => Some (te.1, chatId, content)
              | _ => None
              end) tr.

(** The broadcasts of a trace. *)
Definition broadcasts (tr : list (Z * Event)) : list (string * Arg) :=
  omap (λ te, match te.2 with
              | IoEmit event arg => Some (event, arg)
              | _ => None
              end) tr.

(** The HTTP responses of a trace. *)
Definition responses (tr : list (Z * Event)) : list (Z * Body) :=
  omap (λ te, match te.2 with
              | Response status body => Some (status, body)
              | _ => None
              end) tr.

(** ** The messaging client's events as a step function *)

Inductive ClientEvent :=
  | EvQr (qr : string)
  | EvReady
  | EvAuthFailure
  | EvError (error : string)
  | EvDisconnected (reason : string).

(** The handler registered with [client.on] for each event. *)
Definition handle (ext : External) (ev : ClientEvent) : M unit :=
  match ev with
  | EvQr qr => on_qr qr
  | EvReady => on_ready
  | EvAuthFailure => on_auth_failure
  | EvError error => on_error error
  | EvDisconnected reason => on_disconnected reason
  end.

Definition step (ext : External) (st : State) (ev : ClientEvent) : State :=
  exec (handle ext ev) st.

Definition steps (ext : External) (st : State) (evs : list ClientEvent) : State :=
  foldl (step ext) st evs.

(** A turn of the server outside the HTTP and socket requests: an event
    of the messaging client, the next timer, or the callback of the [k]-th
    waiting call. *)
Inductive Turn :=
  | Client (ev : ClientEvent)
  | Timer_fires
  | Completes (k : nat).

Definition turn (ext : External) (st : State) (t : Turn) : State :=
  match t with
  | Client ev => step ext st ev
  | Timer_fires => tick ext st
  | Completes k => complete ext k st
  end.

Definition turns (ext : External) (st : State) (ts : list Turn) : State :=
  foldl (turn ext) st ts.

(** The events whose handlers clear both flags. *)
Definition is_reset (ev : ClientEvent) : bool :=
  match ev with
  | EvAuthFailure | EvError _ | EvDisconnected _ => true
  | EvQr _ | EvReady => false
  end.

(** The images broadcast with the ["qr"] event. *)
Definition qr_broadcasts (tr : list (Z * Event)) : list Arg :=
  omap (λ te, match te.2 with
              | IoEmit "qr" arg => Some arg
              | _ => None
              end) tr.

(** socket.io delivers [io.emit] to every connected socket and
    [socket.emit] to that socket alone. *)
Definition receivers (st : State) (e : Event) : list nat :=
  match e with
  | IoEmit _ _ => sockets st
  | SocketEmit socket _ _ => [socket]
  | _ => []
  end.

(** ** A test double for the external collaborators *)

Module Demo.

Definition lower_ascii (c : ascii) : ascii :=
  let n := nat_of_ascii c in
  if (65 <=? n)%nat && (n <=? 90)%nat then ascii_of_nat (n + 32) else c.

(** [toLowerCase] on ASCII letters. *)
Fixpoint lower (s : string) : string :=
  match s with
  | EmptyString => EmptyString
  | String c r => String (lower_ascii c) (lower r)
  end.

Definition family : Chat.t :=
  {| Chat.isGroup := true; Chat.name := "Family";
     Chat.id_serialized := "120363@g.us" |}.

Definition alice : Chat.t :=
  {| Chat.isGroup := false; Chat.name := "family";
     Chat.id_serialized := "15550001@c.us" |}.

Definition contacts : list Contact.t :=
  [ {| Contact.isUser := true; Contact.name := Some "Ann"; Contact.number := "1" |};
    {| Contact.isUser := false; Contact.name := Some "News"; Contact.number := "2" |};
    {| Contact.isUser := true; Contact.name := None; Contact.number := "3" |};
    {| Contact.isUser := true; Contact.name := Some EmptyString;
       Contact.number := "4" |};
    {| Contact.isUser := true; Contact.name := Some "Bob"; Contact.number := "5" |} ].

(** The encoder refuses the empty text, an address without local part
    cannot be delivered to, and the number "000" is not registered. *)
Definition ext : External :=
  {| toLowerCase := lower;
     toDataURL := λ qr,
       if Js.truthy_string qr then Ok ("data:image/png;base64," +:+ qr)
       else Err "No input text";
     getContacts := Ok contacts;
     getChats := Ok [alice; family];
     getNumberId := λ n,
       if bool_decide (n = "000") then Ok None else Ok (Some (n +:+ "@c.us"));
     sendMessage := λ chatId _,
       if bool_decide (chatId = "@c.us") then Err "invalid wid" else Ok tt;
     destroy := Ok tt |}.

(** The same collaborators after the groups have left the chat list. *)
Definition without_groups : External :=
  {| toLowerCase := toLowerCase ext;
     toDataURL := toDataURL ext;
     getContacts := getContacts ext;
     getChats := Ok [alice];
     getNumberId := getNumberId ext;
     sendMessage := sendMessage ext;
     destroy := destroy ext |}.

Definition photo : MediaReq.upload :=
  {| MediaReq.originalname := "cat.png"; MediaReq.data := "PNG" |}.

End Demo.

(** ** Frames *)

(** The state with both session flags replaced. *)
Definition with_flags (connected qr : bool) (st : State) : State :=
  set_qrGenerated qr (set_clientConnected connected st).

(** Computations that neither read nor write the session flags: run with
    other flags, they give the same result and the same state but for
    these flags. *)
Definition flag_blind {A} (m : M A) : Prop :=
  ∀ connected qr st,
    m (with_flags connected qr st)
    = ((m st).1, with_flags connected qr (m st).2).

(** The lines a trace logs. *)
Definition logged (tr : list (Z * Event)) : list LogLine :=
  omap (λ te, match te.2 with Log l => Some l | _ => None end) tr.

(** The replies a trace addresses to one socket. *)
Definition socket_replies (tr : list (Z * Event)) : list (nat * string * Arg) :=
  omap (λ te, match te.2 with
              | SocketEmit socket event arg => Some (socket, event, arg)
              | _ => None
              end) tr.

(** The calls of [client.destroy] and [client.initialize] in a trace. *)
Definition lifecycle_calls (tr : list (Z * Event)) : list (Z * Event) :=
  List.filter (λ te, match te.2 with
                     | ClientDestroy | ClientInitialize => true
                     | _ => false
                     end) tr.

(** The events of an HTTP exchange: log lines, the response and the calls
    of [sendMessage]; the others reach the sockets or restart the client. *)
Definition http_event (e : Event) : bool :=
  match e with
  | Log _ | Response _ _ | SendMessage _ _ => true
  | IoEmit _ _ | SocketEmit _ _ _ | ClientDestroy | ClientInitialize => false
  end.

(** [st'] differs from [st] by events of an HTTP exchange only, and
    possibly by its timers and its files: same clock, same sockets, nothing
    sent on a socket, the client neither destroyed nor initialized. *)
Definition http_only (st st' : State) : Prop :=
  now st' = now st
  ∧ sockets st' = sockets st
  ∧ broadcasts (trace st') = broadcasts (trace st)
  ∧ socket_replies (trace st') = socket_replies (trace st)
  ∧ lifecycle_calls (trace st') = lifecycle_calls (trace st).

(** ** Summaries of the turns *)

(** The waiting calls a timer callback leaves behind. *)
Definition job_pendings (j : Job) : list Pending :=
  match j with
  | JobSendOne number message => [PendingSend Immediate number message]
  | JobSendAll numbers message =>
      map (λ number, PendingSend Scheduled number message) numbers
  | JobRestart => []
  end.

(** The events a timer callback writes up to its [await]. *)
Definition job_events (ext : External) (j : Job) : list Event :=
  match j with
  | JobSendOne number message => [SendMessage number (Text message)]
  | JobSendAll numbers message =>
      map (λ number, SendMessage number (Text message)) numbers
  | JobRestart =>
      Log LogRestarting :: ClientDestroy
      :: match destroy ext with
         | Ok _ => [ClientInitialize]
         | Err e => [Log (LogRestartError e)]
         end
  end.

(** The events the callback of a waiting call writes. *)
Definition pending_events (ext : External) (p : Pending) : list Event :=
  match p with
  | PendingQr qr =>
      match toDataURL ext qr with
      | Ok url => [IoEmit "qr" (StrArg url)]
      | Err _ => []
      end
  | PendingSend Immediate number message =>
      [Log (send_one_log ext number message)]
  | PendingSend Scheduled number message =>
      [Log (send_all_log ext number message)]
  end.

(** The encodings among the waiting calls. *)
Definition qr_waiting (l : list Pending) : list string :=
  omap (λ p, match p with PendingQr qr => Some qr | _ => None end) l.

(** Whether the next QR offer would be taken. *)
Definition offer_open (st : State) : bool :=
  negb (clientConnected st || qrGenerated st).

(** QR images broadcast, encodings waiting, and the one offer that may
    still be taken. *)
Definition qr_budget (st : State) : nat :=
  length (qr_broadcasts (trace st)) + length (qr_waiting (inflight st))
  + (if offer_open st then 1 else 0).

(** Turns among which no event clears the flags. *)
Definition reset_free (ts : list Turn) : bool :=
  forallb (λ t, match t with
                | Client ev => negb (is_reset ev)
                | _ => true
                end) ts.

(** The [sendMessage] calls of a trace, without their times. *)
Definition calls (tr : list (Z * Event)) : list (string * Payload) :=
  omap (λ te, match te.2 with
              | SendMessage chatId content => Some (chatId, content)
              | _ => None
              end) tr.

(** The lines of a trace that tell the outcome of a send made by a
    timer. *)
Definition outcome_lines (tr : list (Z * Event)) : list LogLine :=
  omap (λ te, match te.2 with
              | Log (LogSent number) => Some (LogSent number)
              | Log (LogScheduledSent number) => Some (LogScheduledSent number)
              | Log (LogFailed number err) => Some (LogFailed number err)
              | _ => None
              end) tr.

(** The outcome line that a waiting send will log. *)
Definition owed_line (ext : External) (p : Pending) : list LogLine :=
  match p with
  | PendingQr _ => []
  | PendingSend Immediate number message => [send_one_log ext number message]
  | PendingSend Scheduled number message => [send_all_log ext number message]
  end.

(** The sends a pending timer will call. *)
Definition job_calls (j : Job) : list (string * Payload) :=
  match j with
  | JobSendOne number message => [(number, Text message)]
  | JobSendAll numbers message => map (λ number, (number, Text message)) numbers
  | JobRestart => []
  end.

(** The sends still to be called by the pending timers. *)
Definition calls_to_come (st : State) : list (string * Payload) :=
  pending st ≫= (λ t, job_calls (job t)).

(** The outcome lines still to be logged: those of the waiting sends and
    those of the sends that the pending timers will call. *)
Definition lines_to_come (ext : External) (st : State) : list LogLine :=
  (inflight st ≫= owed_line ext)
  ++ (pending st ≫= (λ t, job_pendings (job t) ≫= owed_line ext)).

(** ** Normalization *)

Lemma string_app_cons c s t : String c s +:+ t = String c (s +:+ t).
Proof. reflexivity. Qed.

Lemma string_app_empty_r s : s +:+ EmptyString = s.
Proof.
  induction s as [|c s IH]; [reflexivity|].
  rewrite string_app_cons. congruence.
Qed.

Lemma strip_non_digits_app s t :
  Js.strip_non_digits (s +:+ t) = Js.strip_non_digits s +:+ Js.strip_non_digits t.
Proof.
  induction s as [|c s IH]; [reflexivity|].
  rewrite string_app_cons. simpl.
  destruct (Js.is_digit c); [rewrite string_app_cons|]; congruence.
Qed.

Lemma strip_non_digits_all_digits s :
  Js.strip_non_digits (Js.strip_non_digits s) = Js.strip_non_digits s.
Proof.
  induction s as [|c s IH]; simpl; [reflexivity|].
  destruct (Js.is_digit c) eqn:E; simpl; [rewrite E; congruence | exact IH].
Qed.

Lemma strip_non_digits_normalize x :
  Js.strip_non_digits (normalize x) = Js.strip_non_digits x.
Proof.
  unfold normalize. rewrite strip_non_digits_app, strip_non_digits_all_digits.
  apply string_app_empty_r.
Qed.

Lemma strip_non_digits_filter s :
  String.list_ascii_of_string (Js.strip_non_digits s)
  = List.filter Js.is_digit (String.list_ascii_of_string s).
Proof.
  induction s as [|c s IH]; simpl; [reflexivity|].
  destruct (Js.is_digit c); simpl; congruence.
Qed.

(** C2: normalization keeps exactly the digit characters of its argument,
    in their order, and appends ["@c.us"]; it is idempotent; the example
    of the specification evaluates as stated. *)
Theorem normalize_idempotent :
  (∀ x, normalize x = local_part x +:+ "@c.us"
        ∧ String.list_ascii_of_string (local_part x)
          = List.filter Js.is_digit (String.list_ascii_of_string x))
  ∧ (∀ x, normalize (normalize x) = normalize x)
  ∧ normalize "+1 (555) 123-4567" = "15551234567@c.us".
Proof.
  split; [|split].
  - intros x. split; [reflexivity | apply strip_non_digits_filter].
  - intros x. unfold normalize at 1 3. now rewrite strip_non_digits_normalize.
  - reflexivity.
Qed.

(** ** Running handlers: equations of the primitive effects *)

Ltac unfold_m :=
  unfold exec, mbind, M_bind, mret, M_ret, try_catch, await, get, modify,
    console_log, io_emit, socket_emit, res_json, emit, setTimeout.

Lemma set_pending_set_pending l1 l2 st :
  set_pending l1 (set_pending l2 st) = set_pending l1 st.
Proof. reflexivity. Qed.

Lemma set_pending_id st : set_pending (pending st) st = st.
Proof. now destruct st. Qed.

Lemma forEach_from_setTimeout {A} (mk : nat → A → Job) (dl : nat → Z)
    (l : list A) (i : nat) (st : State) :
  forEach_from i (λ index x, setTimeout (mk index x) (dl index)) l st
  = (Ok tt,
     set_pending
       (pending st
        ++ imap (λ j x, {| set_at := now st; delay := dl (i + j)%nat;
                           job := mk (i + j)%nat x |}) l) st).
Proof.
  revert i st. induction l as [|x r IH]; intros i st.
  - simpl. rewrite app_nil_r, set_pending_id. reflexivity.
  - simpl forEach_from. unfold mbind, M_bind.
    unfold setTimeout at 1, modify. rewrite IH. simpl.
    rewrite set_pending_set_pending, <- app_assoc. simpl.
    rewrite Nat.add_0_r. do 4 f_equal.
    apply imap_ext. intros j y _. simpl. now rewrite Nat.add_succ_r.
Qed.

Lemma post_send_accepted (ns : list string) (msg : string) (d : option Z) (st : State) :
  Js.truthy_string msg = true →
  post_send {| SendReq.numbers := Some ns; SendReq.message := Some msg;
               SendReq.delay := d |} st
  = (Ok tt,
     set_trace
       (trace st
        ++ [(now st, Log (LogSending (map normalize ns)));
            (now st, Response 200 (BodySuccess "Messages are being sent."))])
       (set_pending (pending st ++ send_timers (now st) (default 1000 d) msg ns) st)).
Proof.
  intros Hmsg. unfold post_send, forEach. simpl. rewrite Hmsg. simpl.
  unfold mbind at 1, M_bind at 1. unfold console_log, emit, modify at 1.
  unfold mbind at 1, M_bind at 1. rewrite forEach_from_setTimeout.
  unfold_m. simpl. unfold send_timers.
  rewrite (imap_fmap _ normalize). unfold modify, set_trace, set_pending. simpl.
  rewrite <- app_assoc. reflexivity.
Qed.

(** ** The event loop *)


Lemma pick_None ts : pick ts = None → ts = [].
Proof.
  destruct ts as [|t ts]; [reflexivity|]. simpl.
  destruct (pick ts) as [[v r']|]; [destruct (due t <=? due v)|]; discriminate.
Qed.


Lemma attempts_app tr1 tr2 : attempts (tr1 ++ tr2) = attempts tr1 ++ attempts tr2.
Proof. apply omap_app. Qed.

Lemma broadcasts_app tr1 tr2 :
  broadcasts (tr1 ++ tr2) = broadcasts tr1 ++ broadcasts tr2.
Proof. apply omap_app. Qed.

Lemma responses_app tr1 tr2 :
  responses (tr1 ++ tr2) = responses tr1 ++ responses tr2.
Proof. apply omap_app. Qed.



Section Loop.

Variable ext : External.

Lemma fire_send_one number message st :
  exec (fire ext (JobSendOne number message)) st
  = set_trace (trace st ++ [(now st, SendMessage number (Text message))])
      (set_inflight (inflight st ++ [PendingSend Immediate number message]) st).
Proof. reflexivity. Qed.

(** The line logged when a waiting send settles. *)
Lemma send_settled_exec kind number message st :
  exec (send_settled ext kind number message) st
  = set_trace
      (trace st
       ++ [(now st, Log match kind with
                        | Immediate => send_one_log ext number message
                        | Scheduled => send_all_log ext number message
                        end)]) st.
Proof.
  unfold send_settled, send_one_log, send_all_log. unfold_m.
  destruct (sendMessage ext number (Text message)); destruct kind; reflexivity.
Qed.

Lemma qr_encoded_exec qr st :
  exec (qr_encoded ext qr) st
  = set_trace
      (trace st
       ++ match toDataURL ext qr with
          | Ok url => [(now st, IoEmit "qr" (StrArg url))]
          | Err _ => []
          end) st.
Proof.
  unfold qr_encoded. unfold_m. destruct (toDataURL ext qr); simpl.
  - reflexivity.
  - rewrite app_nil_r. now destruct st.
Qed.

Lemma grows_ret {A} (a : A) : grows (mret a).
Proof. intros st. exists []. simpl. now rewrite app_nil_r. Qed.

Lemma grows_await {A} (r : Result A) : grows (await r).
Proof. intros st. exists []. simpl. now rewrite app_nil_r. Qed.

Lemma grows_emit e : grows (emit e).
Proof. intros st. eexists. reflexivity. Qed.

Lemma grows_start p : grows (start p).
Proof. intros st. exists []. simpl. now rewrite app_nil_r. Qed.

Lemma grows_setTimeout j d : grows (setTimeout j d).
Proof. intros st. exists []. simpl. now rewrite app_nil_r. Qed.

Lemma grows_bind {A B} (m : M A) (k : A → M B) :
  grows m → (∀ a, grows (k a)) → grows (m ≫= k).
Proof.
  intros Hm Hk st. unfold mbind, M_bind. destruct (Hm st) as [t1 H1].
  destruct (m st) as [[a|e] st1]; simpl in *.
  - destruct (Hk a st1) as [t2 H2]. exists (t1 ++ t2).
    now rewrite H2, H1, app_assoc.
  - now exists t1.
Qed.

Lemma grows_try_catch {A} (m : M A) (h : string → M A) :
  grows m → (∀ e, grows (h e)) → grows (try_catch m h).
Proof.
  intros Hm Hh st. unfold try_catch. destruct (Hm st) as [t1 H1].
  destruct (m st) as [[a|e] st1]; simpl in *.
  - now exists t1.
  - destruct (Hh e st1) as [t2 H2]. exists (t1 ++ t2).
    now rewrite H2, H1, app_assoc.
Qed.

Lemma grows_forEach_from {A} (f : nat → A → M unit) l i :
  (∀ j x, grows (f j x)) → grows (forEach_from i f l).
Proof.
  intros Hf. revert i. induction l as [|x r IH]; intros i; simpl.
  - apply grows_ret.
  - apply grows_bind; [apply Hf | intros _; apply IH].
Qed.

Lemma grows_fire j : grows (fire ext j).
Proof.
  destruct j as [number message|numbers message|]; simpl.
  - apply grows_bind; [apply grows_emit | intros; apply grows_start].
  - apply grows_forEach_from; intros _ x.
    apply grows_bind; [apply grows_emit | intros; apply grows_start].
  - unfold restartClient. repeat (apply grows_bind; [apply grows_emit | intros _]).
    destruct (destroy ext); apply grows_emit.
Qed.

Lemma tick_trace st : ∃ tail, trace (tick ext st) = trace st ++ tail.
Proof.
  unfold tick. destruct (pick (pending st)) as [[t rest]|].
  - destruct (grows_fire (job t)
      (set_pending rest (set_now (Z.max (now st) (due t)) st))) as [tail H].
    exists tail. exact H.
  - exists []. now rewrite app_nil_r.
Qed.


Lemma complete_trace k st : ∃ tail, trace (complete ext k st) = trace st ++ tail.
Proof.
  unfold complete. destruct (inflight st !! k) as [[qr|kind number message]|].
  - simpl. rewrite qr_encoded_exec. eexists. reflexivity.
  - simpl. rewrite send_settled_exec. eexists. reflexivity.
  - exists []. now rewrite app_nil_r.
Qed.

Lemma step_trace st ev : ∃ tail, trace (step ext st ev) = trace st ++ tail.
Proof.
  unfold step. destruct ev as [qr| | | |]; simpl.
  - unfold on_qr. unfold_m. destruct (clientConnected st || qrGenerated st).
    + exists []. simpl. now rewrite app_nil_r.
    + eexists. reflexivity.
  - eexists. simpl. rewrite <- app_assoc. reflexivity.
  - eexists. simpl. rewrite <- app_assoc. reflexivity.
  - eexists. simpl. rewrite <- app_assoc. reflexivity.
  - eexists. reflexivity.
Qed.

(** The same for any sequence of turns. *)
Lemma turns_trace ts st : ∃ tail, trace (turns ext st ts) = trace st ++ tail.
Proof.
  revert st. induction ts as [|t ts IH]; intros st.
  - exists []. simpl. now rewrite app_nil_r.
  - assert (H1 : ∃ tail, trace (turn ext st t) = trace st ++ tail).
    { destruct t; [apply step_trace | apply tick_trace | apply complete_trace]. }
    destruct H1 as [t1 H1]. destruct (IH (turn ext st t)) as [t2 H2].
    exists (t1 ++ t2).
    change (turns ext st (t :: ts)) with (turns ext (turn ext st t) ts).
    now rewrite H2, H1, app_assoc.
Qed.

End Loop.

(** ** Bulk send *)

Section BulkSend.

Variable ext : External.



End BulkSend.

Lemma run_idle (ext : External) n st : pending st = [] → run ext n st = st.
Proof.
  intros H. induction n as [|n IH]; [reflexivity|].
  simpl. unfold tick. rewrite H. simpl. exact IH.
Qed.

(** C10: an empty [numbers] array is not a missing parameter: with a
    non-empty message the answer is 200 "Messages are being sent.", no
    timer is registered and the loop has no send to issue; a body without
    [numbers] is answered 400 instead. *)
Theorem send_empty_numbers_accepted
    (ext : External) (msg : string) (d : option Z) (st : State) :
  let st' := exec (post_send {| SendReq.numbers := Some [];
                                SendReq.message := Some msg;
                                SendReq.delay := d |}) st in
  Js.truthy_string msg = true →
  responses (trace st')
  = responses (trace st) ++ [(200, BodySuccess "Messages are being sent.")]
  ∧ pending st' = pending st
  ∧ attempts (trace st') = attempts (trace st)
  ∧ (pending st = [] → ∀ n, run ext n st' = st')
  ∧ responses (trace (exec (post_send {| SendReq.numbers := None;
                                         SendReq.message := Some msg;
                                         SendReq.delay := d |}) st))
    = responses (trace st) ++ [(400, BodyError "Missing parameters")].
Proof.
  intros st' Hmsg. unfold st', exec. rewrite post_send_accepted by exact Hmsg.
  simpl. rewrite app_nil_r, responses_app, attempts_app, app_nil_r.
  repeat split; try reflexivity.
  - intros Hnil n. apply run_idle. exact Hnil.
  - unfold post_send. simpl. unfold_m. simpl. now rewrite responses_app.
Qed.

(** ** Future send *)

Lemma forEach_from_call {A} (f : nat → A → M unit) (g : A → Event)
    (h : A → Pending) (l : list A) (i : nat) (st : State) :
  (∀ j x, f j x = (emit (g x);; start (h x))) →
  forEach_from i f l st
  = (Ok tt,
     set_trace (trace st ++ map (λ x, (now st, g x)) l)
       (set_inflight (inflight st ++ map h l) st)).
Proof.
  intros Hf. revert i st. induction l as [|x r IH]; intros i st.
  - simpl. rewrite !app_nil_r. now destruct st.
  - simpl forEach_from. unfold mbind at 1, M_bind at 1. rewrite Hf.
    unfold mbind at 1, M_bind at 1. unfold emit at 1, start at 1, modify.
    rewrite IH. simpl. unfold set_trace, set_inflight. simpl.
    now rewrite <- !app_assoc.
Qed.


Lemma fire_send_all (ext : External) numbers message st :
  exec (fire ext (JobSendAll numbers message)) st
  = set_trace
      (trace st ++ map (λ x, (now st, SendMessage x (Text message))) numbers)
      (set_inflight
         (inflight st ++ map (λ x, PendingSend Scheduled x message) numbers) st).
Proof.
  unfold exec, fire, forEach.
  now rewrite (forEach_from_call _ (λ x, SendMessage x (Text message))
                 (λ x, PendingSend Scheduled x message)).
Qed.

(** What /schedule does once its three fields passed the presence check. *)
Lemma post_schedule_present (ns : list string) (msg : string) (ts : Z) (st : State) :
  Js.truthy_string msg = true →
  ts ≠ 0 →
  post_schedule {| ScheduleReq.numbers := Some ns;
                   ScheduleReq.message := Some msg;
                   ScheduleReq.timestamp := Some ts |} st
  = if ts - now st <=? 0
    then (Ok tt,
          set_trace (trace st
                     ++ [(now st, Response 400 (BodyError "Invalid timestamp"))]) st)
    else (Ok tt,
          set_trace
            (trace st
             ++ [(now st, Response 200 (BodySuccess "Message scheduled successfully."))])
            (set_pending
               (pending st
                ++ [{| set_at := now st; delay := ts - now st;
                       job := JobSendAll (map normalize ns) msg |}]) st)).
Proof.
  intros Hmsg Hts. unfold post_schedule. simpl. rewrite Hmsg.
  unfold Js.truthy_number. apply Z.eqb_neq in Hts. rewrite Hts. simpl.
  unfold_m. simpl. destruct (ts - now st <=? 0); reflexivity.
Qed.



(** ** Recipients without digits *)

(** C3, as the code has it: no recipient is rejected for its form.  On /send
    and on /schedule every recipient is normalized before anything is
    scheduled, a recipient without digits becomes ["@c.us"], the request
    is answered 200 and a send to every normalized recipient is scheduled:
    such a number can only fail when the send is attempted. *)
Theorem empty_local_part_is_scheduled
    (ns : list string) (msg : string) (st : State) :
  Js.truthy_string msg = true →
  (∀ num, local_part num = EmptyString → normalize num = "@c.us")
  ∧ (∀ d,
       let st' := exec (post_send {| SendReq.numbers := Some ns;
                                     SendReq.message := Some msg;
                                     SendReq.delay := d |}) st in
       responses (trace st')
       = responses (trace st) ++ [(200, BodySuccess "Messages are being sent.")]
       ∧ map job (drop (length (pending st)) (pending st'))
         = map (λ num, JobSendOne (normalize num) msg) ns)
  ∧ (∀ ts, ts ≠ 0 → now st < ts →
       let st' := exec (post_schedule {| ScheduleReq.numbers := Some ns;
                                         ScheduleReq.message := Some msg;
                                         ScheduleReq.timestamp := Some ts |}) st in
       responses (trace st')
       = responses (trace st) ++ [(200, BodySuccess "Message scheduled successfully.")]
       ∧ map job (drop (length (pending st)) (pending st'))
         = [JobSendAll (map normalize ns) msg]).
Proof.
  intros Hmsg. split; [|split].
  - intros num H. unfold normalize. unfold local_part in H. now rewrite H.
  - intros d st'. unfold st', exec. rewrite post_send_accepted by exact Hmsg.
    simpl. rewrite responses_app. split; [reflexivity|].
    rewrite drop_app_length. unfold send_timers.
    generalize (default 1000 d). intros s. clear.
    rewrite fmap_imap. unfold compose. simpl.
    induction ns as [|x r IH] using rev_ind; [reflexivity|].
    rewrite imap_app, map_app, IH. reflexivity.
  - intros ts Hts Hlt st'. unfold st', exec.
    rewrite post_schedule_present by assumption.
    replace (ts - now st <=? 0) with false by (symmetry; apply Z.leb_gt; lia).
    simpl. rewrite responses_app, drop_app_length. split; reflexivity.
Qed.

(** ** What each turn adds *)

Section Effects.

Variable ext : External.

Lemma fire_effect (j : Job) (st : State) :
  exec (fire ext j) st
  = set_trace (trace st ++ map (λ e, (now st, e)) (job_events ext j))
      (set_inflight (inflight st ++ job_pendings j) st).
Proof.
  destruct j as [number message|numbers message|].
  - reflexivity.
  - rewrite fire_send_all. simpl. now rewrite map_map.
  - unfold fire, restartClient. unfold_m. simpl.
    destruct (destroy ext); simpl; rewrite app_nil_r;
      unfold set_trace, set_inflight; simpl; now rewrite <- !app_assoc.
Qed.

Lemma tick_effect (st : State) (t : Timer) (rest : list Timer) :
  pick (pending st) = Some (t, rest) →
  tick ext st
  = set_trace
      (trace st
       ++ map (λ e, (Z.max (now st) (due t), e)) (job_events ext (job t)))
      (set_inflight (inflight st ++ job_pendings (job t))
         (set_pending rest (set_now (Z.max (now st) (due t)) st))).
Proof. intros H. unfold tick. rewrite H. now rewrite fire_effect. Qed.

Lemma tick_idle (st : State) : pick (pending st) = None → tick ext st = st.
Proof. intros H. unfold tick. now rewrite H. Qed.

Lemma complete_effect (k : nat) (p : Pending) (st : State) :
  inflight st !! k = Some p →
  complete ext k st
  = set_trace (trace st ++ map (λ e, (now st, e)) (pending_events ext p))
      (set_inflight (delete k (inflight st)) st).
Proof.
  intros H. unfold complete. rewrite H.
  destruct p as [qr|[|] number message]; simpl.
  - rewrite qr_encoded_exec. simpl. now destruct (toDataURL ext qr).
  - now rewrite send_settled_exec.
  - now rewrite send_settled_exec.
Qed.

Lemma complete_idle (k : nat) (st : State) :
  inflight st !! k = None → complete ext k st = st.
Proof. intros H. unfold complete. now rewrite H. Qed.

End Effects.

(** ** Session state *)

Section Session.

Variable ext : External.

Lemma qr_broadcasts_app tr1 tr2 :
  qr_broadcasts (tr1 ++ tr2) = qr_broadcasts tr1 ++ qr_broadcasts tr2.
Proof. apply omap_app. Qed.

Lemma qr_waiting_app l1 l2 :
  qr_waiting (l1 ++ l2) = qr_waiting l1 ++ qr_waiting l2.
Proof. apply omap_app. Qed.

(** A QR offer while connected, or after an offer was taken, changes
    nothing. *)
Lemma on_qr_ignored qr st :
  clientConnected st || qrGenerated st = true → step ext st (EvQr qr) = st.
Proof. intros H. unfold step, handle, on_qr. unfold_m. now rewrite H. Qed.

(** A QR offer taken: the flag is set and the encoding started. *)
Lemma on_qr_taken qr st :
  clientConnected st || qrGenerated st = false →
  step ext st (EvQr qr)
  = set_trace (trace st ++ [(now st, Log LogScanQr)])
      (set_inflight (inflight st ++ [PendingQr qr]) (set_qrGenerated true st)).
Proof.
  intros H. unfold step, handle, on_qr. unfold_m. rewrite H. reflexivity.
Qed.

Lemma reset_flags ev st :
  is_reset ev = true →
  clientConnected (step ext st ev) = false ∧ qrGenerated (step ext st ev) = false.
Proof. destruct ev; simpl; try discriminate; intros _; split; reflexivity. Qed.

Lemma qr_broadcasts_stamped t (l : list Event) :
  qr_broadcasts (map (λ e, (t, e)) l)
  = omap (λ e, match e with IoEmit "qr" arg => Some arg | _ => None end) l.
Proof.
  induction l as [|e l IH]; [reflexivity|].
  change (map (λ e, (t, e)) (e :: l)) with ((t, e) :: map (λ e, (t, e)) l).
  change (e :: l) with ([e] ++ l).
  change ((t, e) :: map (λ e, (t, e)) l) with ([(t, e)] ++ map (λ e, (t, e)) l).
  rewrite qr_broadcasts_app, omap_app, IH. reflexivity.
Qed.

Lemma job_events_no_qr t j :
  qr_broadcasts (map (λ e, (t, e)) (job_events ext j)) = [].
Proof.
  rewrite qr_broadcasts_stamped.
  destruct j as [number message|numbers message|]; simpl.
  - reflexivity.
  - induction numbers as [|x r IH]; [reflexivity|exact IH].
  - now destruct (destroy ext).
Qed.

Lemma job_pendings_no_qr j : qr_waiting (job_pendings j) = [].
Proof.
  destruct j as [number message|numbers message|]; simpl; try reflexivity.
  induction numbers as [|x r IH]; [reflexivity|exact IH].
Qed.

Lemma qr_waiting_delete k p l :
  l !! k = Some p →
  length (qr_waiting l)
  = (length (qr_waiting (delete k l))
     + match p with PendingQr _ => 1 | PendingSend _ _ _ => 0 end)%nat.
Proof.
  revert k. induction l as [|x l IH]; intros k H; [discriminate|].
  destruct k as [|k]; simpl in H.
  - injection H as ->. destruct p; simpl; lia.
  - specialize (IH k H). change (delete (S k) (x :: l)) with (x :: delete k l).
    destruct x; simpl in *; lia.
Qed.

(** The budget of QR images never grows as long as no event clears the
    flags: an offer is taken only by spending the one that was open, an
    image is broadcast only by a waiting encoding, and nothing else adds
    to either. *)
Lemma qr_budget_turn (st : State) (t : Turn) :
  reset_free [t] = true → (qr_budget (turn ext st t) ≤ qr_budget st)%nat.
Proof.
  intros Hfree. destruct t as [ev| |k]; simpl.
  - destruct ev as [qr| | | |]; simpl in Hfree; try discriminate.
    + destruct (clientConnected st || qrGenerated st) eqn:E.
      * now rewrite on_qr_ignored.
      * rewrite on_qr_taken by exact E. unfold qr_budget, offer_open. simpl.
        rewrite E, qr_broadcasts_app, qr_waiting_app, !length_app. simpl.
        destruct (clientConnected st); simpl; lia.
    + unfold step, qr_budget, offer_open. simpl.
      rewrite !qr_broadcasts_app. simpl. rewrite !app_nil_r.
      destruct (clientConnected st || qrGenerated st); simpl; lia.
  - destruct (pick (pending st)) as [[tm rest]|] eqn:E.
    + rewrite (tick_effect ext st tm rest E). unfold qr_budget, offer_open. simpl.
      rewrite qr_broadcasts_app, job_events_no_qr, qr_waiting_app,
        job_pendings_no_qr, !app_nil_r. lia.
    + now rewrite tick_idle.
  - destruct (inflight st !! k) as [p|] eqn:E.
    + rewrite (complete_effect ext k p st E). unfold qr_budget, offer_open. simpl.
      rewrite qr_broadcasts_app, length_app, (qr_waiting_delete k p _ E).
      rewrite qr_broadcasts_stamped.
      destruct p as [qr|[|] number message]; simpl;
        [destruct (toDataURL ext qr); simpl|..]; lia.
    + now rewrite complete_idle.
Qed.

Lemma qr_budget_turns (ts : list Turn) (st : State) :
  reset_free ts = true → (qr_budget (turns ext st ts) ≤ qr_budget st)%nat.
Proof.
  revert st. induction ts as [|t ts IH]; intros st Hfree; [simpl; lia|].
  simpl in Hfree. apply andb_prop in Hfree as [Ht Hts].
  change (turns ext st (t :: ts)) with (turns ext (turn ext st t) ts).
  etransitivity; [apply IH; exact Hts|].
  apply qr_budget_turn. simpl. now rewrite Ht.
Qed.

(** C5, as the code has it: a QR offer changes nothing when
    [clientConnected] or [qrGenerated] is set; otherwise it sets
    [qrGenerated] and starts one encoding, whose callback, whenever it
    runs and whatever the flags are by then, broadcasts the image once if
    the encoder produced one and nothing if the encoder failed;
    [auth_failure], [error] and [disconnected] clear both flags; and over
    any run of turns without such a reset at most one offer is taken: the
    QR images broadcast and the encodings still waiting never exceed those
    at the start by more than the one offer that was open. *)
Theorem qr_offer_guard :
  (∀ qr st, clientConnected st || qrGenerated st = true →
     step ext st (EvQr qr) = st)
  ∧ (∀ qr st, clientConnected st || qrGenerated st = false →
       qrGenerated (step ext st (EvQr qr)) = true
       ∧ clientConnected (step ext st (EvQr qr)) = false
       ∧ inflight (step ext st (EvQr qr)) = inflight st ++ [PendingQr qr]
       ∧ broadcasts (trace (step ext st (EvQr qr))) = broadcasts (trace st))
  ∧ (∀ k qr st, inflight st !! k = Some (PendingQr qr) →
       broadcasts (trace (complete ext k st))
       = broadcasts (trace st)
         ++ match toDataURL ext qr with
            | Ok url => [("qr", StrArg url)]
            | Err _ => []
            end
       ∧ inflight (complete ext k st) = delete k (inflight st)
       ∧ clientConnected (complete ext k st) = clientConnected st
       ∧ qrGenerated (complete ext k st) = qrGenerated st)
  ∧ (∀ ev st, is_reset ev = true →
       clientConnected (step ext st ev) = false
       ∧ qrGenerated (step ext st ev) = false)
  ∧ (∀ ts st, reset_free ts = true →
       (length (qr_broadcasts (trace (turns ext st ts)))
        + length (qr_waiting (inflight (turns ext st ts)))
        ≤ length (qr_broadcasts (trace st)) + length (qr_waiting (inflight st))
          + (if offer_open st then 1 else 0))%nat).
Proof.
  split; [exact on_qr_ignored|]. split; [|split; [|split]].
  - intros qr st H. rewrite on_qr_taken by exact H. simpl.
    split; [reflexivity|]. split.
    + now apply orb_false_elim in H as [-> _].
    + split; [reflexivity|]. rewrite broadcasts_app. simpl. now rewrite app_nil_r.
  - intros k qr st H. rewrite (complete_effect ext k _ st H). simpl.
    rewrite broadcasts_app. split; [|repeat split].
    f_equal. now destruct (toDataURL ext qr).
  - intros ev st. apply reset_flags.
  - intros ts st H. pose proof (qr_budget_turns ts st H) as Hb.
    unfold qr_budget in Hb. lia.
Qed.

(** C6, as the code has it: [ready], [auth_failure] and [error] update the flags
    and broadcast their notification to every connected socket;
    [disconnected] clears the flags and registers the restart timer of
    5000 ms, and broadcasts nothing. *)
Theorem lifecycle_notifications (st : State) :
  (clientConnected (exec on_ready st) = true
   ∧ qrGenerated (exec on_ready st) = qrGenerated st
   ∧ ∃ e, trace (exec on_ready st) = trace st ++ [(now st, Log LogReady); (now st, e)]
          ∧ e = IoEmit "ready" NoArg ∧ receivers st e = sockets st)
  ∧ (clientConnected (exec on_auth_failure st) = false
     ∧ qrGenerated (exec on_auth_failure st) = false
     ∧ ∃ e, trace (exec on_auth_failure st)
            = trace st ++ [(now st, Log LogAuthFailed); (now st, e)]
            ∧ e = IoEmit "auth_failure" NoArg ∧ receivers st e = sockets st)
  ∧ (∀ error,
       clientConnected (exec (on_error error) st) = false
       ∧ qrGenerated (exec (on_error error) st) = false
       ∧ ∃ e, trace (exec (on_error error) st)
              = trace st ++ [(now st, Log (LogClientError error)); (now st, e)]
              ∧ e = IoEmit "error" (StrArg "WhatsApp client encountered an issue.")
              ∧ receivers st e = sockets st)
  ∧ (∀ reason,
       clientConnected (exec (on_disconnected reason) st) = false
       ∧ qrGenerated (exec (on_disconnected reason) st) = false
       ∧ trace (exec (on_disconnected reason) st)
         = trace st ++ [(now st, Log (LogDisconnected reason))]
       ∧ broadcasts (trace (exec (on_disconnected reason) st)) = broadcasts (trace st)
       ∧ pending (exec (on_disconnected reason) st)
         = pending st ++ [{| set_at := now st; delay := 5000; job := JobRestart |}]).
Proof.
  split; [|split; [|split]].
  - split; [reflexivity|]. split; [reflexivity|]. eexists.
    split; [|split; reflexivity]. simpl. now rewrite <- app_assoc.
  - split; [reflexivity|]. split; [reflexivity|]. eexists.
    split; [|split; reflexivity]. simpl. now rewrite <- app_assoc.
  - intros error. split; [reflexivity|]. split; [reflexivity|]. eexists.
    split; [|split; reflexivity]. simpl. now rewrite <- app_assoc.
  - intros reason. split; [reflexivity|]. split; [reflexivity|].
    split; [reflexivity|]. split; [|reflexivity].
    simpl. rewrite broadcasts_app. simpl. now rewrite app_nil_r.
Qed.

End Session.

(** ** Group send *)

Section GroupSend.

Variable ext : External.

Lemma group_matches_spec groupName chat :
  group_matches ext groupName chat = true
  ↔ Chat.isGroup chat = true
    ∧ toLowerCase ext (Chat.name chat) = toLowerCase ext groupName.
Proof.
  unfold group_matches. rewrite andb_true_iff, bool_decide_eq_true. reflexivity.
Qed.

(** What /send-group does with a request that passed the presence check,
    given the chat list. *)
Lemma post_send_group_present groupName message chats st :
  Js.truthy_string groupName = true →
  Js.truthy_string message = true →
  getChats ext = Ok chats →
  exec (post_send_group ext {| GroupReq.groupName := Some groupName;
                               GroupReq.message := Some message |}) st
  = match List.find (group_matches ext groupName) chats with
    | None =>
        set_trace
          (trace st
           ++ [(now st, Response 404
                  (BodyError ("Group '" +:+ groupName +:+ "' not found")))]) st
    | Some group =>
        set_trace
          (trace st
           ++ (now st, SendMessage (Chat.id_serialized group) (Text message))
              :: match sendMessage ext (Chat.id_serialized group) (Text message) with
                 | Ok _ =>
                     [(now st, Response 200
                         (BodySuccess ("Message sent to " +:+ groupName)))]
                 | Err e =>
                     [(now st, Log (LogGroupError e));
                      (now st, Response 500 (BodyError e))]
                 end) st
    end.
Proof.
  intros Hn Hm Hc. unfold post_send_group. simpl. rewrite Hn, Hm. simpl.
  unfold client_sendMessage. unfold_m. rewrite Hc.
  destruct (List.find (group_matches ext groupName) chats) as [group|];
    [|reflexivity].
  simpl. destruct (sendMessage ext (Chat.id_serialized group) (Text message));
    simpl; unfold set_trace; simpl; rewrite <- ?app_assoc; reflexivity.
Qed.

(** C7: on a /send-group request that passed the presence check, with the
    chat list fetched: when no group chat has the requested name up to
    case, the answer is 404 and [sendMessage] is not called; when one has,
    the message is sent to the first such group before the response, which
    is 200 if the send resolved and 500 with the error if it was
    rejected. *)
Theorem send_group_not_found
    (groupName message : string) (chats : list Chat.t) (st : State) :
  let st' := exec (post_send_group ext {| GroupReq.groupName := Some groupName;
                                          GroupReq.message := Some message |}) st in
  Js.truthy_string groupName = true →
  Js.truthy_string message = true →
  getChats ext = Ok chats →
  ((∀ chat, chat ∈ chats → Chat.isGroup chat = true →
      toLowerCase ext (Chat.name chat) ≠ toLowerCase ext groupName) →
   trace st'
   = trace st
     ++ [(now st, Response 404 (BodyError ("Group '" +:+ groupName +:+ "' not found")))]
   ∧ attempts (trace st') = attempts (trace st))
  ∧ ((∃ chat, chat ∈ chats ∧ Chat.isGroup chat = true
              ∧ toLowerCase ext (Chat.name chat) = toLowerCase ext groupName) →
     ∃ group,
       List.find (group_matches ext groupName) chats = Some group
       ∧ group ∈ chats ∧ Chat.isGroup group = true
       ∧ toLowerCase ext (Chat.name group) = toLowerCase ext groupName
       ∧ attempts (trace st')
         = attempts (trace st)
           ++ [(now st, Chat.id_serialized group, Text message)]
       ∧ responses (trace st')
         = responses (trace st)
           ++ [match sendMessage ext (Chat.id_serialized group) (Text message) with
               | Ok _ => (200, BodySuccess ("Message sent to " +:+ groupName))
               | Err e => (500, BodyError e)
               end]
       ∧ ∃ outcome,
           trace st'
           = trace st
             ++ (now st, SendMessage (Chat.id_serialized group) (Text message))
                :: outcome).
Proof.
  intros st' Hn Hm Hc. unfold st'.
  rewrite (post_send_group_present _ _ chats) by assumption.
  split.
  - intros Hno.
    destruct (List.find (group_matches ext groupName) chats) as [group|] eqn:E.
    + apply List.find_some in E as [Hin Hmatch].
      apply group_matches_spec in Hmatch as [Hg Hl].
      apply list_elem_of_In in Hin. now destruct (Hno group Hin Hg).
    + simpl. split; [reflexivity|]. rewrite attempts_app. simpl.
      now rewrite app_nil_r.
  - intros (chat & Hin & Hg & Hl).
    destruct (List.find (group_matches ext groupName) chats) as [group|] eqn:E.
    + exists group. split; [reflexivity|].
      apply List.find_some in E as [Hin' Hmatch].
      apply group_matches_spec in Hmatch as [Hg' Hl'].
      apply list_elem_of_In in Hin'.
      split; [exact Hin'|]. split; [exact Hg'|]. split; [exact Hl'|].
      simpl. rewrite attempts_app, responses_app.
      destruct (sendMessage ext (Chat.id_serialized group) (Text message));
        simpl; (split; [reflexivity|]); (split; [reflexivity|]);
        eexists; reflexivity.
    + exfalso. apply list_elem_of_In in Hin.
      pose proof (List.find_none _ _ E chat Hin) as Hf.
      assert (group_matches ext groupName chat = true) as Ht
        by (apply group_matches_spec; now split).
      congruence.
Qed.

End GroupSend.

(** ** Contact listing *)

Lemma slice_page {A} (page pageSize : Z) (l : list A) :
  1 ≤ page → 1 ≤ pageSize →
  Js.slice ((page - 1) * pageSize) (page * pageSize) l
  = take (Z.to_nat pageSize) (drop (Z.to_nat ((page - 1) * pageSize)) l).
Proof.
  intros Hp Hs. unfold Js.slice, Js.clamp_index.
  set (len := Z.of_nat (List.length l)).
  assert (0 ≤ len) by (unfold len; lia).
  assert (0 ≤ (page - 1) * pageSize) by nia.
  assert ((page - 1) * pageSize + pageSize = page * pageSize) by ring.
  destruct ((page - 1) * pageSize <? 0) eqn:E1; [apply Z.ltb_lt in E1; lia|].
  destruct (page * pageSize <? 0) eqn:E2; [apply Z.ltb_lt in E2; lia|].
  destruct (Z.le_gt_cases len ((page - 1) * pageSize)) as [Hge|Hlt].
  - rewrite (Z.min_r _ len) by lia. rewrite (Z.min_r _ len) by lia.
    assert (Hlen : (length l ≤ Z.to_nat len)%nat) by (unfold len; lia).
    assert (Hlen' : (length l ≤ Z.to_nat ((page - 1) * pageSize))%nat)
      by (unfold len in *; lia).
    rewrite (drop_ge l (Z.to_nat len)) by exact Hlen.
    rewrite (drop_ge l (Z.to_nat ((page - 1) * pageSize))) by exact Hlen'.
    now rewrite !take_nil.
  - rewrite (Z.min_l ((page - 1) * pageSize) len) by lia.
    destruct (Z.le_gt_cases (page * pageSize) len) as [Hin|Hout].
    + rewrite (Z.min_l (page * pageSize) len) by lia. f_equal. lia.
    + rewrite (Z.min_r (page * pageSize) len) by lia.
      rewrite !take_ge; [reflexivity| |]; rewrite length_drop; unfold len in *; lia.
Qed.

(** C8: for [page ≥ 1] and [pageSize ≥ 1] the reply holds the user-type
    contacts at positions [(page-1)*pageSize] to [page*pageSize - 1] of
    the filtered sequence, in order, each with its number and with its
    name, or "Unknown" when it has none (an empty name counts as none); a
    page past the end is the empty list, sent as a [contactsList] reply
    like any other. *)
Theorem list_contacts_page
    (ext : External) (page pageSize : Z) (contacts : list Contact.t)
    (socket : nat) (st : State) :
  let users := List.filter Contact.isUser contacts in
  let start := Z.to_nat ((page - 1) * pageSize) in
  let result := listContacts page pageSize contacts in
  1 ≤ page → 1 ≤ pageSize →
  result = map contact_summary (take (Z.to_nat pageSize) (drop start users))
  ∧ (∀ c, c ∈ users ↔ c ∈ contacts ∧ Contact.isUser c = true)
  ∧ (∀ k, (k < Z.to_nat pageSize)%nat →
       result !! k = contact_summary <$> users !! (start + k)%nat)
  ∧ (length result ≤ Z.to_nat pageSize)%nat
  ∧ ((length users ≤ start)%nat → result = [])
  ∧ (∀ c, cs_number (contact_summary c) = Contact.number c
          ∧ cs_name (contact_summary c)
            = match Contact.name c with
              | Some (String a r) => String a r
              | Some EmptyString | None => "Unknown"
              end)
  ∧ (getContacts ext = Ok contacts →
     trace (exec (on_getContacts ext socket page pageSize) st)
     = trace st ++ [(now st, SocketEmit socket "contactsList" (ContactsArg result))]).
Proof.
  intros users start result Hp Hs.
  assert (Hres : result
    = map contact_summary (take (Z.to_nat pageSize) (drop start users))).
  { unfold result, listContacts. now rewrite slice_page. }
  split; [exact Hres|]. split; [|split; [|split; [|split; [|split]]]].
  - intros c. unfold users. rewrite !list_elem_of_In. apply List.filter_In.
  - intros k Hk. rewrite Hres, list_lookup_fmap, lookup_take_lt by exact Hk.
    now rewrite lookup_drop.
  - rewrite Hres, length_map, length_take. lia.
  - intros Hpast. rewrite Hres, drop_ge by exact Hpast. now rewrite take_nil.
  - intros c. split; [reflexivity|]. unfold contact_summary. simpl.
    destruct (Contact.name c) as [[|a r]|]; reflexivity.
  - intros Hc. unfold on_getContacts. unfold_m. rewrite Hc. reflexivity.
Qed.

(** ** Media send *)

Section MediaSend.

Variable ext : External.

(** The handler of /send-media on a state that holds the uploaded file. *)
Lemma send_media_handler_stored
    (u : MediaReq.upload) (number : string) (caption : option string) (st : State) :
  files st !! upload_path u = Some (MediaReq.data u) →
  Js.truthy_string number = true →
  exec (send_media_handler ext {| MediaReq.file := Some u;
                                  MediaReq.number := Some number;
                                  MediaReq.caption := caption |}) st
  = match getNumberId ext number with
    | Err e =>
        set_trace (trace st ++ [(now st, Log (LogMediaError e));
                                (now st, Response 500 (BodyError e))]) st
    | Ok None =>
        set_trace (trace st ++ [(now st, Response 400
                                   (BodyError "Invalid WhatsApp number"))]) st
    | Ok (Some serialized) =>
        let media := Media (MediaReq.data u) caption in
        match sendMessage ext serialized media with
        | Ok _ =>
            set_trace
              (trace st ++ [(now st, SendMessage serialized media);
                            (now st, Response 200
                               (BodySuccess "Media sent successfully."))])
              (set_files (delete (upload_path u) (files st)) st)
        | Err e =>
            set_trace
              (trace st ++ [(now st, SendMessage serialized media);
                            (now st, Log (LogMediaError e));
                            (now st, Response 500 (BodyError e))]) st
        end
    end.
Proof.
  intros Hfile Hnum. unfold send_media_handler. simpl. rewrite Hnum. simpl.
  unfold client_sendMessage, fromFilePath, unlinkSync. unfold_m.
  destruct (getNumberId ext number) as [[serialized|]|e]; simpl;
    [|reflexivity|unfold set_trace; simpl; rewrite <- app_assoc; reflexivity].
  rewrite Hfile.
  destruct (sendMessage ext serialized (Media (MediaReq.data u) caption)); simpl.
  - rewrite Hfile. unfold set_trace, set_files. simpl.
    rewrite <- app_assoc. reflexivity.
  - unfold set_trace. simpl. rewrite <- !app_assoc. reflexivity.
Qed.

Lemma post_send_media_exec
    (u : MediaReq.upload) (number caption : option string) (st : State) :
  exec (post_send_media ext {| MediaReq.file := Some u;
                               MediaReq.number := number;
                               MediaReq.caption := caption |}) st
  = exec (send_media_handler ext {| MediaReq.file := Some u;
                                    MediaReq.number := number;
                                    MediaReq.caption := caption |})
      (set_files (<[upload_path u := MediaReq.data u]> (files st)) st).
Proof. reflexivity. Qed.

(** C9: the uploaded file is removed exactly when the send succeeded,
    that is when the number resolved to an identifier and [sendMessage]
    resolved; when the number resolves to nothing and when the send is
    rejected the file stays as uploaded; apart from the trace, nothing
    else of the state changes: the flags, the sockets, the timers and
    every other file are as before the request. *)
Theorem media_file_deleted_only_on_success
    (u : MediaReq.upload) (number caption : option string) (st : State) :
  let path := upload_path u in
  let stored := <[path := MediaReq.data u]> (files st) in
  let st' := exec (post_send_media ext {| MediaReq.file := Some u;
                                          MediaReq.number := number;
                                          MediaReq.caption := caption |}) st in
  let succeeded :=
    ∃ n serialized,
      number = Some n ∧ Js.truthy_string n = true
      ∧ getNumberId ext n = Ok (Some serialized)
      ∧ sendMessage ext serialized (Media (MediaReq.data u) caption) = Ok tt in
  (files st' !! path = None ↔ succeeded)
  ∧ (succeeded →
     files st' = delete path stored
     ∧ responses (trace st')
       = responses (trace st) ++ [(200, BodySuccess "Media sent successfully.")])
  ∧ (¬ succeeded → files st' = stored)
  ∧ (∀ n, number = Some n → Js.truthy_string n = true →
       getNumberId ext n = Ok None →
       files st' = stored
       ∧ trace st'
         = trace st
           ++ [(now st, Response 400 (BodyError "Invalid WhatsApp number"))])
  ∧ (∀ n serialized e, number = Some n → Js.truthy_string n = true →
       getNumberId ext n = Ok (Some serialized) →
       sendMessage ext serialized (Media (MediaReq.data u) caption) = Err e →
       files st' = stored
       ∧ trace st'
         = trace st
           ++ [(now st, SendMessage serialized (Media (MediaReq.data u) caption));
               (now st, Log (LogMediaError e));
               (now st, Response 500 (BodyError e))])
  ∧ (now st' = now st
     ∧ clientConnected st' = clientConnected st
     ∧ qrGenerated st' = qrGenerated st
     ∧ sockets st' = sockets st
     ∧ pending st' = pending st
     ∧ ∀ p, p ≠ path → files st' !! p = files st !! p).
Proof.
  intros path stored st' succeeded.
  assert (Hstored : stored !! path = Some (MediaReq.data u))
    by apply lookup_insert_eq.
  assert (Hcases :
    (succeeded
     ∧ st' = set_trace
         (trace st
          ++ [(now st, SendMessage
                 (match number with
                  | Some n => match getNumberId ext n with
                              | Ok (Some serialized) => serialized
                              | _ => EmptyString
                              end
                  | None => EmptyString
                  end) (Media (MediaReq.data u) caption));
              (now st, Response 200 (BodySuccess "Media sent successfully."))])
         (set_files (delete path stored) st))
    ∨ (¬ succeeded ∧ ∃ tail, st' = set_trace (trace st ++ tail) (set_files stored st))).
  { unfold st'. rewrite post_send_media_exec. fold path. fold stored.
    destruct number as [n|].
    2:{ right. split; [intros (n & s & H & _); discriminate|].
        eexists. reflexivity. }
    destruct (Js.truthy_string n) eqn:Hn.
    2:{ right. split; [intros (n' & s & [= <-] & H & _); congruence|].
        unfold send_media_handler. simpl. rewrite Hn. eexists. reflexivity. }
    rewrite send_media_handler_stored by assumption. simpl.
    destruct (getNumberId ext n) as [[serialized|]|e] eqn:Hid.
    - destruct (sendMessage ext serialized (Media (MediaReq.data u) caption))
        as [[]|e] eqn:Hsend.
      + left. split; [now exists n, serialized|]. reflexivity.
      + right. split; [|eexists; reflexivity].
        intros (n' & s & [= <-] & _ & Hid' & Hs). congruence.
    - right. split; [|eexists; reflexivity].
      intros (n' & s & [= <-] & _ & Hid' & _). congruence.
    - right. split; [|eexists; reflexivity].
      intros (n' & s & [= <-] & _ & Hid' & _). congruence. }
  split; [|split; [|split; [|split; [|split]]]].
  - destruct Hcases as [[Hs ->]|[Hn [tail ->]]]; simpl.
    + split; [intros _; exact Hs | intros _; apply lookup_delete_eq].
    + fold path in Hstored. rewrite Hstored. split; [discriminate | tauto].
  - intros Hs. destruct Hcases as [[_ ->]|[Hn _]]; [|tauto]. simpl.
    split; [reflexivity|]. now rewrite responses_app.
  - intros Hn. destruct Hcases as [[Hs _]|[_ [tail ->]]]; [tauto|]. reflexivity.
  - intros n -> Hn Hid. unfold st'. rewrite post_send_media_exec.
    fold path. fold stored. rewrite send_media_handler_stored by assumption.
    rewrite Hid. split; reflexivity.
  - intros n serialized e -> Hn Hid Hsend. unfold st'.
    rewrite post_send_media_exec. fold path. fold stored.
    rewrite send_media_handler_stored by assumption.
    rewrite Hid. simpl. rewrite Hsend. split; reflexivity.
  - destruct Hcases as [[_ ->]|[_ [tail ->]]]; simpl;
      repeat (split; [reflexivity|]); intros p Hp; unfold stored;
      [rewrite lookup_delete_ne by congruence|]; now apply lookup_insert_ne.
Qed.

End MediaSend.

(** ** Concrete runs *)


Lemma send_empty_numbers_accepted_witness :
  Js.truthy_string "hi" = true
  ∧ responses (trace (exec (post_send {| SendReq.numbers := Some [];
                                         SendReq.message := Some "hi";
                                         SendReq.delay := None |}) (initial_state 0)))
    = [(200, BodySuccess "Messages are being sent.")].
Proof.
  split; [reflexivity|].
  exact (proj1 (send_empty_numbers_accepted Demo.ext "hi" None (initial_state 0)
                  eq_refl)).
Defined.


Lemma empty_local_part_is_scheduled_witness :
  Js.truthy_string "hi" = true
  ∧ map job (pending (exec (post_send {| SendReq.numbers := Some ["abc"; "555-1234"];
                                         SendReq.message := Some "hi";
                                         SendReq.delay := None |}) (initial_state 0)))
    = [JobSendOne "@c.us" "hi"; JobSendOne "5551234@c.us" "hi"].
Proof.
  split; [reflexivity|].
  exact (proj2 (proj1 (proj2 (empty_local_part_is_scheduled
                                ["abc"; "555-1234"] "hi" (initial_state 0)
                                eq_refl)) None)).
Defined.



(** C3 as the specification words it fails: a recipient without digits is accepted on both
    endpoints, and the send to ["@c.us"] is attempted when the timer
    fires. *)
Lemma empty_local_part_not_rejected :
  local_part "abc" = EmptyString
  ∧ (let st' := exec (post_send {| SendReq.numbers := Some ["abc"];
                                   SendReq.message := Some "hi";
                                   SendReq.delay := None |}) (initial_state 0) in
     responses (trace st') = [(200, BodySuccess "Messages are being sent.")]
     ∧ pending st' = [ {| set_at := 0; delay := 0; job := JobSendOne "@c.us" "hi" |} ]
     ∧ attempts (trace (run Demo.ext 1 st')) = [(1, "@c.us", Text "hi")])
  ∧ (let st' := exec (post_schedule {| ScheduleReq.numbers := Some ["abc"];
                                       ScheduleReq.message := Some "hi";
                                       ScheduleReq.timestamp := Some 60 |})
                     (initial_state 0) in
     responses (trace st') = [(200, BodySuccess "Message scheduled successfully.")]
     ∧ pending st' = [ {| set_at := 0; delay := 60; job := JobSendAll ["@c.us"] "hi" |} ]
     ∧ attempts (trace (run Demo.ext 1 st')) = [(60, "@c.us", Text "hi")]).
Proof. repeat split. Qed.

Lemma qr_offer_guard_witness :
  clientConnected (initial_state 0) || qrGenerated (initial_state 0) = false
  ∧ inflight (step Demo.ext (initial_state 0) (EvQr "2@abc")) = [PendingQr "2@abc"]
  ∧ broadcasts (trace (complete Demo.ext 0
                         (step Demo.ext (initial_state 0) (EvQr "2@abc"))))
    = [("qr", StrArg "data:image/png;base64,2@abc")].
Proof.
  split; [reflexivity|]. split.
  - exact (proj1 (proj2 (proj2 (proj1 (proj2 (qr_offer_guard Demo.ext))
                                  "2@abc" (initial_state 0) eq_refl)))).
  - exact (proj1 (proj1 (proj2 (proj2 (qr_offer_guard Demo.ext)))
                    0%nat "2@abc"
                    (step Demo.ext (initial_state 0) (EvQr "2@abc")) eq_refl)).
Defined.

(** C5 as the specification words it fails, twice.  An offer taken while
    both flags are clear sets [qrGenerated] but is never broadcast when the
    encoder reports an error.  And an offer taken just before a reset is
    broadcast after it, beside the image of the next offer: two QR
    broadcasts with no reset between them. *)
Lemma qr_offer_without_broadcast :
  (clientConnected (initial_state 0) || qrGenerated (initial_state 0) = false
   ∧ toDataURL Demo.ext EmptyString = Err "No input text"
   ∧ (let st := turns Demo.ext (initial_state 0)
                  [Client (EvQr EmptyString); Completes 0] in
      qrGenerated st = true ∧ inflight st = [] ∧ broadcasts (trace st) = []))
  ∧ (let st := turns Demo.ext (initial_state 0)
                 [Client (EvQr "2@abc"); Client (EvDisconnected "LOGOUT")] in
     let ts := [Client (EvQr "2@def"); Completes 0; Completes 0] in
     qr_broadcasts (trace st) = []
     ∧ reset_free ts = true
     ∧ qr_broadcasts (trace (turns Demo.ext st ts))
       = [StrArg "data:image/png;base64,2@abc";
          StrArg "data:image/png;base64,2@def"]).
Proof. repeat split. Qed.

(** C6 as the specification words it fails: with a socket connected, the handler of
    [disconnected] broadcasts nothing, while that of [auth_failure]
    does. *)
Lemma disconnected_not_broadcast :
  let st := exec (on_connection 7%nat) (initial_state 0) in
  sockets st = [7%nat]
  ∧ broadcasts (trace (exec (on_disconnected "LOGOUT") st)) = []
  ∧ broadcasts (trace (exec on_auth_failure st)) = [("auth_failure", NoArg)].
Proof. repeat split. Qed.

Lemma send_group_not_found_witness :
  Js.truthy_string "Friends" = true ∧ Js.truthy_string "hello" = true
  ∧ getChats Demo.ext = Ok [Demo.alice; Demo.family]
  ∧ trace (exec (post_send_group Demo.ext
                   {| GroupReq.groupName := Some "Friends";
                      GroupReq.message := Some "hello" |}) (initial_state 0))
    = [(0, Response 404 (BodyError "Group 'Friends' not found"))].
Proof.
  split; [reflexivity|]. split; [reflexivity|]. split; [reflexivity|].
  refine (proj1 (proj1 (send_group_not_found Demo.ext "Friends" "hello"
                          [Demo.alice; Demo.family] (initial_state 0)
                          eq_refl eq_refl eq_refl) _)).
  intros chat Hin Hgroup.
  apply elem_of_cons in Hin as [->|Hin]; [discriminate Hgroup|].
  apply elem_of_cons in Hin as [->|Hin]; [discriminate|].
  now apply elem_of_nil in Hin.
Defined.

(** The same group is found whatever the case of the requested name, and
    a chat that is not a group is passed over although its name fits. *)
Example send_group_found_ignoring_case :
  trace (exec (post_send_group Demo.ext
                 {| GroupReq.groupName := Some "FAMILY";
                    GroupReq.message := Some "hello" |}) (initial_state 0))
  = [(0, SendMessage "120363@g.us" (Text "hello"));
     (0, Response 200 (BodySuccess "Message sent to FAMILY"))].
Proof. reflexivity. Qed.

Lemma list_contacts_page_witness :
  1 ≤ 2 ∧ 1 ≤ 2
  ∧ listContacts 2 2 Demo.contacts
    = [ {| cs_name := "Unknown"; cs_number := "4" |};
        {| cs_name := "Bob"; cs_number := "5" |} ].
Proof.
  split; [lia|]. split; [lia|].
  exact (proj1 (list_contacts_page Demo.ext 2 2 Demo.contacts 0%nat (initial_state 0)
                  ltac:(lia) ltac:(lia))).
Defined.

(** The example of the specification: page 2 of size 10 over 25 user
    contacts holds those at positions 10 to 19. *)
Example list_contacts_second_page :
  let contact (i : nat) :=
    {| Contact.isUser := true; Contact.name := None;
       Contact.number := String (ascii_of_nat (65 + i)) EmptyString |} in
  listContacts 2 10 (map contact (seq 0 25))
  = map (λ i, {| cs_name := "Unknown";
                 cs_number := String (ascii_of_nat (65 + i)) EmptyString |})
        (seq 10 10).
Proof. reflexivity. Qed.

Lemma media_file_deleted_only_on_success_witness :
  files (exec (post_send_media Demo.ext
                 {| MediaReq.file := Some Demo.photo;
                    MediaReq.number := Some "15551234567";
                    MediaReq.caption := None |}) (initial_state 0))
    !! "uploads/cat.png" = None
  ∧ files (exec (post_send_media Demo.ext
                   {| MediaReq.file := Some Demo.photo;
                      MediaReq.number := Some "000";
                      MediaReq.caption := None |}) (initial_state 0))
    = {[ "uploads/cat.png" := "PNG" ]}.
Proof.
  split.
  - apply (proj1 (media_file_deleted_only_on_success Demo.ext Demo.photo
                    (Some "15551234567") None (initial_state 0))).
    exists "15551234567", "15551234567@c.us". repeat split.
  - apply (proj1 (proj2 (proj2 (proj2
             (media_file_deleted_only_on_success Demo.ext Demo.photo
                (Some "000") None (initial_state 0))))) "000");
      reflexivity.
Defined.

(** * Further properties of the handlers *)

(** ** Addresses *)

Lemma chars_app s t :
  String.list_ascii_of_string (s +:+ t)
  = String.list_ascii_of_string s ++ String.list_ascii_of_string t.
Proof.
  induction s as [|c s IH]; [reflexivity|].
  rewrite string_app_cons. simpl. now rewrite IH.
Qed.

Lemma chars_inj s t :
  String.list_ascii_of_string s = String.list_ascii_of_string t → s = t.
Proof.
  intros H. rewrite <- (String.string_of_list_ascii_of_string s),
    <- (String.string_of_list_ascii_of_string t). now rewrite H.
Qed.

Lemma string_app_inv_tail s1 s2 t : s1 +:+ t = s2 +:+ t → s1 = s2.
Proof.
  intros H. apply chars_inj. apply (f_equal String.list_ascii_of_string) in H.
  rewrite !chars_app in H. now apply app_inv_tail in H.
Qed.

(** X1: two raw numbers are sent to the same address exactly when they have
    the same digits in the same order; in particular a character that is
    not a digit can be inserted anywhere without changing the address. *)
Theorem normalize_eq_iff :
  (∀ x y,
     normalize x = normalize y
     ↔ List.filter Js.is_digit (String.list_ascii_of_string x)
       = List.filter Js.is_digit (String.list_ascii_of_string y))
  ∧ (∀ a c b, Js.is_digit c = false →
       normalize (a +:+ String c b) = normalize (a +:+ b)).
Proof.
  split.
  - intros x y. rewrite <- !strip_non_digits_filter. unfold normalize. split.
    + intros H. apply string_app_inv_tail in H. now rewrite H.
    + intros H. apply chars_inj in H. now rewrite H.
  - intros a c b Hc. unfold normalize. rewrite !strip_non_digits_app.
    simpl. now rewrite Hc.
Qed.

Lemma normalize_eq_iff_witness :
  Js.is_digit "-" = false
  ∧ normalize ("555" +:+ String "-" "1234") = normalize ("555" +:+ "1234").
Proof.
  split; [reflexivity|].
  exact (proj2 normalize_eq_iff "555" "-"%char "1234" eq_refl).
Defined.

(** ** Validation of the requests *)

Lemma truthy_string_false s : Js.truthy_string s = false ↔ s = EmptyString.
Proof. destruct s; simpl; split; congruence. Qed.

(** Every /send request is either refused for a missing parameter or
    accepted with its timers. *)
Lemma post_send_cases (body : SendReq.t) (st : State) :
  ((SendReq.numbers body = None ∨ SendReq.message body = None
    ∨ SendReq.message body = Some EmptyString)
   ∧ exec (post_send body) st
     = set_trace (trace st
                  ++ [(now st, Response 400 (BodyError "Missing parameters"))]) st)
  ∨ (∃ ns msg,
       SendReq.numbers body = Some ns ∧ SendReq.message body = Some msg
       ∧ Js.truthy_string msg = true
       ∧ exec (post_send body) st
         = set_trace
             (trace st
              ++ [(now st, Log (LogSending (map normalize ns)));
                  (now st, Response 200 (BodySuccess "Messages are being sent."))])
             (set_pending
                (pending st
                 ++ send_timers (now st) (default 1000 (SendReq.delay body)) msg ns)
                st)).
Proof.
  destruct body as [[ns|] [msg|] d]; simpl.
  - destruct (Js.truthy_string msg) eqn:Hmsg.
    + right. exists ns, msg. repeat (split; [reflexivity|]).
      unfold exec. now rewrite post_send_accepted.
    + left. apply truthy_string_false in Hmsg as ->. split; [tauto|reflexivity].
  - left. split; [tauto|reflexivity].
  - left. split; [tauto|]. unfold exec, post_send. simpl. reflexivity.
  - left. split; [tauto|reflexivity].
Qed.

(** Every /schedule request is refused for a missing parameter, refused
    for its timestamp, or accepted with its one timer. *)
Lemma post_schedule_cases (body : ScheduleReq.t) (st : State) :
  ((ScheduleReq.numbers body = None ∨ ScheduleReq.message body = None
    ∨ ScheduleReq.message body = Some EmptyString
    ∨ ScheduleReq.timestamp body = None ∨ ScheduleReq.timestamp body = Some 0)
   ∧ exec (post_schedule body) st
     = set_trace (trace st
                  ++ [(now st, Response 400 (BodyError "Missing parameters"))]) st)
  ∨ (∃ ns msg ts,
       ScheduleReq.numbers body = Some ns ∧ ScheduleReq.message body = Some msg
       ∧ ScheduleReq.timestamp body = Some ts
       ∧ Js.truthy_string msg = true ∧ ts ≠ 0
       ∧ ((ts ≤ now st
           ∧ exec (post_schedule body) st
             = set_trace (trace st
                          ++ [(now st, Response 400 (BodyError "Invalid timestamp"))])
                 st)
          ∨ (now st < ts
             ∧ exec (post_schedule body) st
               = set_trace
                   (trace st
                    ++ [(now st, Response 200
                           (BodySuccess "Message scheduled successfully."))])
                   (set_pending
                      (pending st
                       ++ [{| set_at := now st; delay := ts - now st;
                              job := JobSendAll (map normalize ns) msg |}]) st)))).
Proof.
  destruct body as [[ns|] [msg|] [ts|]]; simpl;
    try (left; split; [tauto|];
         unfold exec, post_schedule; simpl;
         rewrite ?orb_true_r; reflexivity).
  destruct (Js.truthy_string msg) eqn:Hmsg.
  2:{ left. apply truthy_string_false in Hmsg as ->. split; [tauto|].
      unfold exec, post_schedule. simpl. reflexivity. }
  destruct (Z.eq_dec ts 0) as [->|Hts].
  { left. split; [tauto|]. unfold exec, post_schedule. simpl. rewrite Hmsg.
    reflexivity. }
  right. exists ns, msg, ts. repeat (split; [reflexivity || assumption|]).
  unfold exec. rewrite post_schedule_present by assumption.
  destruct (ts - now st <=? 0) eqn:E.
  - left. apply Z.leb_le in E. split; [lia|reflexivity].
  - right. apply Z.leb_gt in E. split; [lia|reflexivity].
Qed.

(** X2: a /send request is answered 400 "Missing parameters" exactly when it
    has no [numbers] or no non-empty [message], a /schedule request exactly
    when in addition to these its [timestamp] is absent or 0; such a
    request registers no timer and writes nothing else to the trace. *)
Theorem missing_parameters_refused (st : State) :
  (∀ body,
     let st' := exec (post_send body) st in
     ((SendReq.numbers body = None ∨ SendReq.message body = None
       ∨ SendReq.message body = Some EmptyString)
      ↔ responses (trace st')
        = responses (trace st) ++ [(400, BodyError "Missing parameters")])
     ∧ (responses (trace st')
        = responses (trace st) ++ [(400, BodyError "Missing parameters")] →
        pending st' = pending st
        ∧ trace st'
          = trace st ++ [(now st, Response 400 (BodyError "Missing parameters"))]))
  ∧ (∀ body,
       let st' := exec (post_schedule body) st in
       ((ScheduleReq.numbers body = None ∨ ScheduleReq.message body = None
         ∨ ScheduleReq.message body = Some EmptyString
         ∨ ScheduleReq.timestamp body = None ∨ ScheduleReq.timestamp body = Some 0)
        ↔ responses (trace st')
          = responses (trace st) ++ [(400, BodyError "Missing parameters")])
       ∧ (responses (trace st')
          = responses (trace st) ++ [(400, BodyError "Missing parameters")] →
          pending st' = pending st
          ∧ trace st'
            = trace st ++ [(now st, Response 400 (BodyError "Missing parameters"))])).
Proof.
  split.
  - intros body st'. unfold st'.
    destruct (post_send_cases body st)
      as [[Hmiss ->]|(ns & msg & Hn & Hm & Hmsg & ->)]; simpl;
      rewrite responses_app; simpl.
    + split; [tauto|]. intros _. split; reflexivity.
    + assert (Hne : responses (trace st) ++ [(200, BodySuccess "Messages are being sent.")]
                    ≠ responses (trace st) ++ [(400, BodyError "Missing parameters")]).
      { intros H. apply app_inv_head in H. discriminate. }
      split; [|intros H; contradiction].
      split; [|intros H; contradiction].
      intros [H|[H|H]]; try congruence.
      rewrite Hm in H. injection H as ->. discriminate.
  - intros body st'. unfold st'.
    destruct (post_schedule_cases body st)
      as [[Hmiss ->]|(ns & msg & ts & Hn & Hm & Ht & Hmsg & Hts & Hcase)].
    + simpl. rewrite responses_app. simpl.
      split; [tauto|]. intros _. split; reflexivity.
    + assert (Hne : ∀ r, r ≠ (400, BodyError "Missing parameters") →
                responses (trace st) ++ [r]
                ≠ responses (trace st) ++ [(400, BodyError "Missing parameters")]).
      { intros r Hr H. apply app_inv_head in H. congruence. }
      assert (Hpresent : ¬ (ScheduleReq.numbers body = None
                ∨ ScheduleReq.message body = None
                ∨ ScheduleReq.message body = Some EmptyString
                ∨ ScheduleReq.timestamp body = None
                ∨ ScheduleReq.timestamp body = Some 0)).
      { intros [H|[H|[H|[H|H]]]]; try congruence.
        rewrite Hm in H. injection H as ->. discriminate. }
      destruct Hcase as [[_ ->]|[_ ->]]; simpl; rewrite responses_app; simpl;
        (split; [split; [tauto|]|]); intros H;
        exfalso; revert H; apply Hne; discriminate.
Qed.

Lemma missing_parameters_refused_witness :
  let st' := exec (post_schedule {| ScheduleReq.numbers := Some ["555-1234"];
                                    ScheduleReq.message := Some "hi";
                                    ScheduleReq.timestamp := None |})
                  (initial_state 100) in
  responses (trace st') = [(400, BodyError "Missing parameters")]
  ∧ pending st' = [].
Proof.
  pose proof (proj2 (missing_parameters_refused (initial_state 100))
                {| ScheduleReq.numbers := Some ["555-1234"];
                   ScheduleReq.message := Some "hi";
                   ScheduleReq.timestamp := None |}) as [_ H].
  split; [reflexivity|]. exact (proj1 (H eq_refl)).
Defined.

(** ** Every request is answered once *)

Section Answers.

Variable ext : External.

(** What /send-group does with any request. *)
Lemma post_send_group_cases (body : GroupReq.t) (st : State) :
  let st' := exec (post_send_group ext body) st in
  st' = set_trace
          (trace st
           ++ [(now st, Response 400 (BodyError "Group name and message required"))])
          st
  ∨ (∃ groupName message,
       GroupReq.groupName body = Some groupName
       ∧ GroupReq.message body = Some message
       ∧ Js.truthy_string groupName = true ∧ Js.truthy_string message = true
       ∧ ((∃ e, getChats ext = Err e
                ∧ st' = set_trace
                          (trace st ++ [(now st, Log (LogGroupError e));
                                        (now st, Response 500 (BodyError e))]) st)
          ∨ (∃ chats, getChats ext = Ok chats
                ∧ List.find (group_matches ext groupName) chats = None
                ∧ st' = set_trace
                          (trace st
                           ++ [(now st, Response 404
                                  (BodyError ("Group '" +:+ groupName
                                              +:+ "' not found")))]) st)
          ∨ (∃ chats group, getChats ext = Ok chats
                ∧ List.find (group_matches ext groupName) chats = Some group
                ∧ st' = set_trace
                          (trace st
                           ++ (now st, SendMessage (Chat.id_serialized group)
                                         (Text message))
                              :: match sendMessage ext (Chat.id_serialized group)
                                         (Text message) with
                                 | Ok _ =>
                                     [(now st, Response 200
                                         (BodySuccess ("Message sent to "
                                                       +:+ groupName)))]
                                 | Err e =>
                                     [(now st, Log (LogGroupError e));
                                      (now st, Response 500 (BodyError e))]
                                 end) st))).
Proof.
  intros st'. unfold st'. destruct body as [[groupName|] [message|]];
    try (left; reflexivity).
  - destruct (Js.truthy_string groupName) eqn:Hn;
      [|left; unfold exec, post_send_group; simpl; now rewrite Hn].
    destruct (Js.truthy_string message) eqn:Hm;
      [|left; unfold exec, post_send_group; simpl; now rewrite Hn, Hm].
    right. exists groupName, message.
    do 4 (split; [reflexivity || assumption|]).
    destruct (getChats ext) as [chats|e] eqn:Hc.
    + right. rewrite (post_send_group_present ext _ _ chats) by assumption.
      destruct (List.find (group_matches ext groupName) chats) as [group|] eqn:E.
      * right. exists chats, group. repeat split. exact E.
      * left. exists chats. repeat split. exact E.
    + left. exists e. split; [reflexivity|].
      unfold post_send_group. simpl. rewrite Hn, Hm. simpl.
      unfold_m. rewrite Hc. simpl. unfold set_trace. simpl.
      now rewrite <- app_assoc.
  - left. unfold exec, post_send_group. simpl.
    destruct (Js.truthy_string groupName); reflexivity.
Qed.

(** What /send-media does with any request, after the upload. *)
Lemma post_send_media_cases (req : MediaReq.t) (st : State) :
  let st' := exec (post_send_media ext req) st in
  (∃ files', (files' = files st
              ∨ ∃ u, MediaReq.file req = Some u
                     ∧ files' = <[upload_path u := MediaReq.data u]> (files st))
     ∧ st' = set_trace
               (trace st
                ++ [(now st, Response 400 (BodyError "Number and media file required"))])
               (set_files files' st)
     ∧ (MediaReq.file req = None → files' = files st)
     ∧ (MediaReq.file req = None ∨ MediaReq.number req = None
        ∨ MediaReq.number req = Some EmptyString))
  ∨ (∃ u number,
       MediaReq.file req = Some u ∧ MediaReq.number req = Some number
       ∧ Js.truthy_string number = true
       ∧ st' = exec (send_media_handler ext
                       {| MediaReq.file := Some u;
                          MediaReq.number := Some number;
                          MediaReq.caption := MediaReq.caption req |})
                 (set_files (<[upload_path u := MediaReq.data u]> (files st)) st)).
Proof.
  intros st'. unfold st'. destruct req as [[u|] number caption].
  - rewrite post_send_media_exec.
    destruct number as [number|].
    + destruct (Js.truthy_string number) eqn:Hn.
      * right. exists u, number. repeat split. exact Hn.
      * left. eexists. split; [right; exists u; split; reflexivity|].
        apply truthy_string_false in Hn as ->.
        split; [reflexivity|]. split; [discriminate|]. tauto.
    + left. eexists. split; [right; exists u; split; reflexivity|].
      split; [reflexivity|]. split; [discriminate|]. tauto.
  - left. exists (files st). split; [now left|].
    split; [|split; [reflexivity|tauto]].
    unfold exec, post_send_media, upload_single, send_media_handler. simpl.
    now destruct st.
Qed.

(** X3: for every request whose fields, where present, have the types of
    the wire format, and whatever the messaging client answers, each HTTP
    handler writes exactly one response, with one of the status codes of
    its endpoint. *)
Theorem http_handlers_respond_once (st : State) :
  (∀ body, ∃ status b,
     responses (trace (exec (post_send body) st))
     = responses (trace st) ++ [(status, b)]
     ∧ (status = 200 ∨ status = 400))
  ∧ (∀ body, ∃ status b,
       responses (trace (exec (post_schedule body) st))
       = responses (trace st) ++ [(status, b)]
       ∧ (status = 200 ∨ status = 400))
  ∧ (∃ status b,
       responses (trace (exec (get_list_groups ext) st))
       = responses (trace st) ++ [(status, b)]
       ∧ (status = 200 ∨ status = 500))
  ∧ (∀ body, ∃ status b,
       responses (trace (exec (post_send_group ext body) st))
       = responses (trace st) ++ [(status, b)]
       ∧ (status = 200 ∨ status = 400 ∨ status = 404 ∨ status = 500))
  ∧ (∀ req, ∃ status b,
       responses (trace (exec (post_send_media ext req) st))
       = responses (trace st) ++ [(status, b)]
       ∧ (status = 200 ∨ status = 400 ∨ status = 500)).
Proof.
  split; [|split; [|split; [|split]]].
  - intros body.
    destruct (post_send_cases body st)
      as [[_ ->]|(ns & msg & _ & _ & _ & ->)]; simpl; rewrite responses_app;
      simpl; eexists _, _; (split; [reflexivity|]); tauto.
  - intros body.
    destruct (post_schedule_cases body st)
      as [[_ ->]|(ns & msg & ts & _ & _ & _ & _ & _ & [[_ ->]|[_ ->]])];
      simpl; rewrite responses_app; simpl;
      eexists _, _; (split; [reflexivity|]); tauto.
  - unfold get_list_groups. unfold_m.
    destruct (getChats ext); simpl; rewrite responses_app; simpl;
      eexists _, _; (split; [reflexivity|]); tauto.
  - intros body.
    destruct (post_send_group_cases body st)
      as [->|(g & m & _ & _ & _ & _ &
              [(e & _ & ->)|[(chats & _ & _ & ->)|(chats & group & _ & _ & ->)]])];
      simpl; rewrite responses_app; simpl;
      try (eexists _, _; (split; [reflexivity|]); tauto).
    destruct (sendMessage ext (Chat.id_serialized group) (Text m)); simpl;
      eexists _, _; (split; [reflexivity|]); tauto.
  - intros req.
    destruct (post_send_media_cases req st)
      as [(files' & _ & -> & _)|(u & number & _ & _ & Hn & ->)].
    + simpl. rewrite responses_app. simpl.
      eexists _, _; (split; [reflexivity|]); tauto.
    + rewrite send_media_handler_stored; [|apply lookup_insert_eq|exact Hn].
      destruct (getNumberId ext number) as [[serialized|]|e]; simpl;
        [destruct (sendMessage ext serialized _); simpl| |];
        rewrite responses_app; simpl;
        eexists _, _; (split; [reflexivity|]); tauto.
Qed.

End Answers.

(** ** Groups *)

Section Groups.

Variable ext : External.

(** X4: /send-group sends at most one message, only to a chat of the fetched
    list that is a group and whose name is the requested one up to case,
    and it registers no timer. *)
Theorem send_group_only_to_groups (body : GroupReq.t) (st : State) :
  let st' := exec (post_send_group ext body) st in
  pending st' = pending st
  ∧ (attempts (trace st') = attempts (trace st)
     ∨ ∃ chats group groupName message,
         getChats ext = Ok chats
         ∧ GroupReq.groupName body = Some groupName
         ∧ GroupReq.message body = Some message
         ∧ group ∈ chats ∧ Chat.isGroup group = true
         ∧ toLowerCase ext (Chat.name group) = toLowerCase ext groupName
         ∧ attempts (trace st')
           = attempts (trace st)
             ++ [(now st, Chat.id_serialized group, Text message)]).
Proof.
  intros st'. unfold st'.
  destruct (post_send_group_cases ext body st)
    as [->|(g & m & Hg & Hm & _ & _ &
            [(e & _ & ->)|[(chats & _ & _ & ->)|(chats & group & Hc & Hf & ->)]])];
    simpl; (split; [reflexivity|]); rewrite attempts_app; simpl;
    try (left; now rewrite app_nil_r).
  right. exists chats, group, g, m.
  apply List.find_some in Hf as [Hin Hmatch].
  apply group_matches_spec in Hmatch as [Hgroup Hlow].
  apply list_elem_of_In in Hin.
  do 6 (split; [assumption|]).
  now destruct (sendMessage ext (Chat.id_serialized group) (Text m)).
Qed.

(** X5: a name that /list-groups returned is not answered 404 by a later
    /send-group as long as the messaging client still gives the chat list
    it gave for the listing (the list is fetched anew by each request):
    with a non-empty name and message, the message is sent to a group of
    that name up to case and the answer is 200 or 500.  [earlier] is what
    the collaborators answered at the time of the listing. *)
Theorem listed_group_is_found
    (earlier : External) (groups : list string) (groupName message : string)
    (st0 st : State) :
  let st' := exec (post_send_group ext {| GroupReq.groupName := Some groupName;
                                          GroupReq.message := Some message |}) st in
  responses (trace (exec (get_list_groups earlier) st0))
  = responses (trace st0) ++ [(200, BodyGroups groups)] →
  getChats ext = getChats earlier →
  groupName ∈ groups →
  Js.truthy_string groupName = true →
  Js.truthy_string message = true →
  ∃ chats group,
    getChats ext = Ok chats
    ∧ groups = map Chat.name (List.filter Chat.isGroup chats)
    ∧ group ∈ chats ∧ Chat.isGroup group = true
    ∧ toLowerCase ext (Chat.name group) = toLowerCase ext groupName
    ∧ attempts (trace st')
      = attempts (trace st) ++ [(now st, Chat.id_serialized group, Text message)]
    ∧ responses (trace st')
      = responses (trace st)
        ++ [match sendMessage ext (Chat.id_serialized group) (Text message) with
            | Ok _ => (200, BodySuccess ("Message sent to " +:+ groupName))
            | Err e => (500, BodyError e)
            end].
Proof.
  intros st' Hlist Hsame Hin Hn Hm. unfold st'.
  unfold get_list_groups in Hlist. unfold_m. rewrite <- Hsame in Hlist.
  destruct (getChats ext) as [chats|e] eqn:Hc; simpl in Hlist;
    rewrite responses_app in Hlist; apply app_inv_head in Hlist;
    simpl in Hlist; [|discriminate].
  injection Hlist as <-.
  apply list_elem_of_fmap in Hin as (chat & -> & Hchat).
  apply list_elem_of_In, List.filter_In in Hchat as [Hchat Hgroup].
  destruct (List.find (group_matches ext (Chat.name chat)) chats)
    as [group|] eqn:Hf.
  - exists chats, group. split; [reflexivity|]. split; [reflexivity|].
    pose proof Hf as Hf'. apply List.find_some in Hf' as [Hin' Hmatch].
    apply group_matches_spec in Hmatch as [Hg Hl].
    apply list_elem_of_In in Hin'. do 3 (split; [assumption|]).
    fold (exec (post_send_group ext {| GroupReq.groupName := Some (Chat.name chat);
                                       GroupReq.message := Some message |}) st).
    rewrite (post_send_group_present ext _ _ chats), Hf by assumption.
    simpl. rewrite attempts_app, responses_app.
    destruct (sendMessage ext (Chat.id_serialized group) (Text message));
      split; reflexivity.
  - exfalso. pose proof (List.find_none _ _ Hf chat Hchat) as Hno.
    assert (group_matches ext (Chat.name chat) chat = true) as Hyes
      by (apply group_matches_spec; now split).
    congruence.
Qed.

End Groups.

Lemma listed_group_is_found_witness :
  responses (trace (exec (get_list_groups Demo.ext) (initial_state 0)))
  = [(200, BodyGroups ["Family"])]
  ∧ getChats Demo.ext = getChats Demo.ext
  ∧ "Family" ∈ ["Family"]
  ∧ Js.truthy_string "Family" = true ∧ Js.truthy_string "hello" = true
  ∧ ∃ chats group,
      getChats Demo.ext = Ok chats
      ∧ ["Family"] = map Chat.name (List.filter Chat.isGroup chats)
      ∧ group ∈ chats ∧ Chat.isGroup group = true
      ∧ Demo.lower (Chat.name group) = Demo.lower "Family"
      ∧ attempts (trace (exec (post_send_group Demo.ext
                                 {| GroupReq.groupName := Some "Family";
                                    GroupReq.message := Some "hello" |})
                               (initial_state 5)))
        = [(5, Chat.id_serialized group, Text "hello")]
      ∧ responses (trace (exec (post_send_group Demo.ext
                                  {| GroupReq.groupName := Some "Family";
                                     GroupReq.message := Some "hello" |})
                                (initial_state 5)))
        = [match sendMessage Demo.ext (Chat.id_serialized group) (Text "hello") with
           | Ok _ => (200, BodySuccess "Message sent to Family")
           | Err e => (500, BodyError e)
           end].
Proof.
  split; [reflexivity|]. split; [reflexivity|]. split; [apply list_elem_of_here|].
  split; [reflexivity|]. split; [reflexivity|].
  exact (listed_group_is_found Demo.ext Demo.ext ["Family"] "Family" "hello"
           (initial_state 0) (initial_state 5)
           eq_refl eq_refl (list_elem_of_here _ _) eq_refl eq_refl).
Defined.

(** Without that condition the name can be refused: the group was listed,
    then left the chat list, and the send is answered 404. *)
Example listed_group_gone :
  responses (trace (exec (get_list_groups Demo.ext) (initial_state 0)))
  = [(200, BodyGroups ["Family"])]
  ∧ getChats Demo.without_groups = Ok [Demo.alice]
  ∧ responses (trace (exec (post_send_group Demo.without_groups
                              {| GroupReq.groupName := Some "Family";
                                 GroupReq.message := Some "hello" |})
                            (initial_state 5)))
    = [(404, BodyError "Group 'Family' not found")].
Proof. repeat split. Qed.

(** ** Media *)

Section Media.

Variable ext : External.

(** X6: /send-media calls [sendMessage] at most once: only when the number is
    there and resolves to an identifier, then to that identifier, with the
    uploaded bytes and the caption of the request; it registers no
    timer. *)
Theorem media_sent_only_to_resolved_number (req : MediaReq.t) (st : State) :
  let st' := exec (post_send_media ext req) st in
  pending st' = pending st
  ∧ attempts (trace st')
    = attempts (trace st)
      ++ match MediaReq.file req, MediaReq.number req with
         | Some u, Some number =>
             if Js.truthy_string number then
               match getNumberId ext number with
               | Ok (Some serialized) =>
                   [(now st, serialized,
                     Media (MediaReq.data u) (MediaReq.caption req))]
               | _ => []
               end
             else []
         | _, _ => []
         end.
Proof.
  intros st'. unfold st'.
  destruct (post_send_media_cases ext req st)
    as [(files' & _ & -> & _ & Hmiss)|(u & number & Hu & Hnum & Hn & ->)].
  - simpl. split; [reflexivity|]. rewrite attempts_app. simpl.
    destruct Hmiss as [ -> | [ -> | -> ] ]; simpl;
      destruct (MediaReq.file req); reflexivity.
  - rewrite Hu, Hnum, Hn.
    rewrite send_media_handler_stored; [|apply lookup_insert_eq|exact Hn].
    destruct (getNumberId ext number) as [[serialized|]|e]; simpl;
      [destruct (sendMessage ext serialized _); simpl| |];
      (split; [reflexivity|]); now rewrite attempts_app.
Qed.

(** X7: the upload is stored under its original name: whatever was at that
    path before the request is lost, the path afterwards holds the new
    bytes or nothing, and no other path changes; a request without a file
    leaves the disk as it was. *)
Theorem media_upload_replaces_same_name (req : MediaReq.t) (st : State) :
  let st' := exec (post_send_media ext req) st in
  (MediaReq.file req = None → files st' = files st)
  ∧ (∀ u, MediaReq.file req = Some u →
       (files st' !! upload_path u = None
        ∨ files st' !! upload_path u = Some (MediaReq.data u))
       ∧ (∀ p, p ≠ upload_path u → files st' !! p = files st !! p)
       ∧ ((MediaReq.number req = None ∨ MediaReq.number req = Some EmptyString) →
          files st' !! upload_path u = Some (MediaReq.data u)
          ∧ trace st'
            = trace st
              ++ [(now st, Response 400
                     (BodyError "Number and media file required"))])).
Proof.
  intros st'. unfold st'. destruct req as [[u|] number caption]; simpl.
  2:{ split; [intros _; reflexivity | intros u; discriminate]. }
  split; [discriminate|]. intros u' Hu'. injection Hu' as <-.
  rewrite post_send_media_exec.
  assert (Hother : ∀ (m : gmap string string) p, p ≠ upload_path u →
            <[upload_path u := MediaReq.data u]> m !! p = m !! p).
  { intros m p Hp. now apply lookup_insert_ne. }
  destruct number as [number|];
    [destruct (Js.truthy_string number) eqn:Hn|].
  - rewrite send_media_handler_stored; [|apply lookup_insert_eq|exact Hn].
    assert (Hpresent : ¬ (Some number = None ∨ Some number = Some EmptyString)).
    { intros [H|H]; [discriminate|]. injection H as ->. discriminate. }
    destruct (getNumberId ext number) as [[serialized|]|e]; simpl;
      [destruct (sendMessage ext serialized _); simpl| |].
    + split; [left; apply lookup_delete_eq|]. split; [|tauto].
      intros p Hp. rewrite lookup_delete_ne by congruence. now apply Hother.
    + split; [right; apply lookup_insert_eq|]. split; [exact (Hother _)|tauto].
    + split; [right; apply lookup_insert_eq|]. split; [exact (Hother _)|tauto].
    + split; [right; apply lookup_insert_eq|]. split; [exact (Hother _)|tauto].
  - unfold exec, send_media_handler. simpl. rewrite Hn. simpl.
    split; [right; apply lookup_insert_eq|]. split; [exact (Hother _)|].
    intros _. split; [apply lookup_insert_eq|reflexivity].
  - simpl. split; [right; apply lookup_insert_eq|]. split; [exact (Hother _)|].
    intros _. split; [apply lookup_insert_eq|reflexivity].
Qed.

End Media.

Lemma media_upload_replaces_same_name_witness :
  let st := set_files {[ "uploads/cat.png" := "OLD"; "uploads/dog.png" := "DOG" ]}
              (initial_state 0) in
  let st' := exec (post_send_media Demo.ext
                     {| MediaReq.file := Some Demo.photo;
                        MediaReq.number := None;
                        MediaReq.caption := None |}) st in
  files st' !! "uploads/cat.png" = Some "PNG"
  ∧ files st' !! "uploads/dog.png" = Some "DOG".
Proof.
  intros st st'.
  pose proof (proj2 (media_upload_replaces_same_name Demo.ext
                       {| MediaReq.file := Some Demo.photo;
                          MediaReq.number := None;
                          MediaReq.caption := None |} st)
                Demo.photo eq_refl) as (_ & Hother & Hmissing).
  split.
  - exact (proj1 (Hmissing (or_introl eq_refl))).
  - unfold st'. rewrite (Hother "uploads/dog.png") by discriminate.
    reflexivity.
Defined.

(** ** What the timers do and never do *)

Lemma omap_fmap_None {A B C} (f : B → option C) (g : A → B) (l : list A) :
  (∀ x, f (g x) = None) → omap f (map g l) = [].
Proof.
  intros H. induction l as [|x r IH]; simpl; [reflexivity|]. now rewrite H.
Qed.

Section Timers.

Variable ext : External.

(** A timer callback writes no response and emits nothing on a socket; it
    leaves the flags, the sockets, the disk, the clock and the queue as
    they are. *)
Lemma fire_frame (j : Job) (st : State) :
  let st' := exec (fire ext j) st in
  responses (trace st') = responses (trace st)
  ∧ broadcasts (trace st') = broadcasts (trace st)
  ∧ socket_replies (trace st') = socket_replies (trace st)
  ∧ clientConnected st' = clientConnected st
  ∧ qrGenerated st' = qrGenerated st
  ∧ sockets st' = sockets st
  ∧ files st' = files st
  ∧ pending st' = pending st
  ∧ now st' = now st.
Proof.
  intros st'. unfold st'. destruct j as [number message|numbers message|].
  - rewrite fire_send_one. simpl.
    unfold responses, broadcasts, socket_replies. rewrite !omap_app. simpl.
    rewrite !app_nil_r. repeat split.
  - rewrite fire_send_all. simpl.
    unfold responses, broadcasts, socket_replies. rewrite !omap_app.
    rewrite !omap_fmap_None by reflexivity. rewrite !app_nil_r. repeat split.
  - unfold fire, restartClient. unfold_m. simpl.
    destruct (destroy ext); simpl;
      unfold responses, broadcasts, socket_replies; rewrite !omap_app; simpl;
      rewrite !app_nil_r; repeat split.
Qed.

(** X8: fire and forget: however long the loop runs and whatever the sends
    do, no HTTP response and no socket event is ever produced by it, and
    the session flags, the sockets and the disk stay as they were; the same
    holds of a send that settles. *)
Theorem loop_never_answers (n : nat) (st : State) :
  responses (trace (run ext n st)) = responses (trace st)
  ∧ broadcasts (trace (run ext n st)) = broadcasts (trace st)
  ∧ socket_replies (trace (run ext n st)) = socket_replies (trace st)
  ∧ clientConnected (run ext n st) = clientConnected st
  ∧ qrGenerated (run ext n st) = qrGenerated st
  ∧ sockets (run ext n st) = sockets st
  ∧ files (run ext n st) = files st
  ∧ (∀ k kind number message,
       inflight st !! k = Some (PendingSend kind number message) →
       responses (trace (complete ext k st)) = responses (trace st)
       ∧ broadcasts (trace (complete ext k st)) = broadcasts (trace st)
       ∧ socket_replies (trace (complete ext k st)) = socket_replies (trace st)
       ∧ clientConnected (complete ext k st) = clientConnected st
       ∧ qrGenerated (complete ext k st) = qrGenerated st
       ∧ sockets (complete ext k st) = sockets st
       ∧ files (complete ext k st) = files st).
Proof.
  assert (Hrun : ∀ n st,
    responses (trace (run ext n st)) = responses (trace st)
    ∧ broadcasts (trace (run ext n st)) = broadcasts (trace st)
    ∧ socket_replies (trace (run ext n st)) = socket_replies (trace st)
    ∧ clientConnected (run ext n st) = clientConnected st
    ∧ qrGenerated (run ext n st) = qrGenerated st
    ∧ sockets (run ext n st) = sockets st
    ∧ files (run ext n st) = files st).
  { clear n st. induction n as [|n IH]; intros st; [repeat split|].
    simpl. destruct (IH (tick ext st)) as (H1 & H2 & H3 & H4 & H5 & H6 & H7).
    rewrite H1, H2, H3, H4, H5, H6, H7. unfold tick.
    destruct (pick (pending st)) as [[t rest]|]; [|repeat split].
    destruct (fire_frame (job t)
                (set_pending rest (set_now (Z.max (now st) (due t)) st)))
      as (F1 & F2 & F3 & F4 & F5 & F6 & F7 & _).
    rewrite F1, F2, F3, F4, F5, F6, F7. repeat split. }
  destruct (Hrun n st) as (H1 & H2 & H3 & H4 & H5 & H6 & H7).
  do 7 (split; [assumption|]).
  intros k kind number message Hk. rewrite (complete_effect ext k _ st Hk).
  unfold responses, broadcasts, socket_replies.
  destruct kind; simpl; rewrite !omap_app; simpl; rewrite !app_nil_r;
    repeat split.
Qed.

Lemma pick_length ts t rest :
  pick ts = Some (t, rest) → length ts = S (length rest).
Proof.
  revert t rest. induction ts as [|u ts IH]; intros t rest; simpl; [discriminate|].
  destruct (pick ts) as [[v r']|] eqn:E.
  - destruct (due u <=? due v); intros [= <- <-]; [reflexivity|].
    simpl. f_equal. eapply IH. reflexivity.
  - apply pick_None in E as ->. now intros [= <- <-].
Qed.

Lemma tick_length st :
  length (pending (tick ext st)) = Nat.pred (length (pending st)).
Proof.
  unfold tick. destruct (pick (pending st)) as [[t rest]|] eqn:E.
  - destruct (fire_frame (job t)
                (set_pending rest (set_now (Z.max (now st) (due t)) st)))
      as (_ & _ & _ & _ & _ & _ & _ & -> & _).
    simpl. now rewrite (pick_length _ _ _ E).
  - apply pick_None in E. now rewrite E.
Qed.

(** X9: a timer never reschedules: each turn of the loop takes one timer off
    the queue and adds none, so a queue of [n] timers is empty after [n]
    turns and the loop then stands still; a call that completes registers
    no timer either. *)
Theorem loop_drains_queue (n : nat) (st : State) :
  length (pending (run ext n st)) = (length (pending st) - n)%nat
  ∧ ((length (pending st) ≤ n)%nat →
     pending (run ext n st) = []
     ∧ ∀ m, run ext m (run ext n st) = run ext n st)
  ∧ (∀ k, pending (complete ext k st) = pending st).
Proof.
  assert (Hlen : ∀ k s, length (pending (run ext k s)) = (length (pending s) - k)%nat).
  { induction k as [|k IH]; intros s; simpl; [lia|].
    rewrite IH, tick_length. lia. }
  split; [apply Hlen|]. split.
  - intros Hle.
    assert (Hnil : pending (run ext n st) = []).
    { apply length_zero_iff_nil. rewrite Hlen. lia. }
    split; [exact Hnil|]. intros m. now apply run_idle.
  - intros k. destruct (inflight st !! k) as [p|] eqn:E.
    + now rewrite (complete_effect ext k p st E).
    + now rewrite complete_idle.
Qed.

End Timers.

Lemma loop_drains_queue_witness :
  let st := exec (on_disconnected "LOGOUT")
              (exec (post_send {| SendReq.numbers := Some ["1"; "2"];
                                  SendReq.message := Some "hi";
                                  SendReq.delay := None |}) (initial_state 0)) in
  (length (pending st) ≤ 3)%nat
  ∧ pending (run Demo.ext 3 st) = [].
Proof.
  intros st. assert (H : (length (pending st) ≤ 3)%nat) by (simpl; lia).
  split; [exact H|].
  exact (proj1 (proj1 (proj2 (loop_drains_queue Demo.ext 3 st)) H)).
Defined.

(** ** Reconnection *)

Section Reconnect.

Variable ext : External.

Lemma lifecycle_calls_app tr1 tr2 :
  lifecycle_calls (tr1 ++ tr2) = lifecycle_calls tr1 ++ lifecycle_calls tr2.
Proof. apply List.filter_app. Qed.

(** X10: after a [disconnected] event, with no other timer pending, the loop
    destroys the client 5000 ms later and initializes it again only if the
    destruction resolved; if it was rejected the error is logged and
    nothing more happens: the queue is empty, the client is never
    initialized and both flags stay cleared. *)
Theorem restart_after_disconnect (reason : string) (st : State) :
  let st' := run ext 1 (exec (on_disconnected reason) st) in
  pending st = [] →
  lifecycle_calls (trace st')
    = lifecycle_calls (trace st)
      ++ (now st + 5000, ClientDestroy)
         :: match destroy ext with
            | Ok _ => [(now st + 5000, ClientInitialize)]
            | Err _ => []
            end
  ∧ logged (trace st')
    = logged (trace st)
      ++ LogDisconnected reason :: LogRestarting
         :: match destroy ext with
            | Ok _ => []
            | Err e => [LogRestartError e]
            end
  ∧ pending st' = []
  ∧ clientConnected st' = false ∧ qrGenerated st' = false
  ∧ ∀ n, run ext n st' = st'.
Proof.
  intros st' Hnil.
  assert (Hst' : st'
    = exec (fire ext JobRestart)
        (set_pending []
           (set_now (now st + 5000) (exec (on_disconnected reason) st)))).
  { unfold st'. cbn [run]. unfold tick.
    replace (pending (exec (on_disconnected reason) st))
      with [{| set_at := now st; delay := 5000; job := JobRestart |}]
      by (simpl; now rewrite Hnil).
    cbn [pick job].
    replace (Z.max _ (due _)) with (now st + 5000); [reflexivity|].
    unfold due. cbn [set_at delay].
    change (Js.timeout_delay 5000) with 5000.
    change (now (exec (on_disconnected reason) st)) with (now st). lia. }
  assert (Hpend : pending st' = []).
  { rewrite Hst'. unfold fire, restartClient. unfold_m. simpl.
    now destruct (destroy ext). }
  rewrite Hst'. rewrite Hst' in Hpend.
  split; [|split; [|split; [exact Hpend|split; [|split]]]].
  - unfold fire, restartClient. unfold_m. simpl.
    destruct (destroy ext); simpl; rewrite !lifecycle_calls_app; simpl;
      now rewrite <- ?app_assoc, ?app_nil_r.
  - unfold fire, restartClient. unfold_m. simpl. unfold logged.
    destruct (destroy ext); simpl; rewrite !omap_app; simpl;
      now rewrite <- ?app_assoc.
  - unfold fire, restartClient. unfold_m. simpl. now destruct (destroy ext).
  - unfold fire, restartClient. unfold_m. simpl. now destruct (destroy ext).
  - intros n. now apply run_idle.
Qed.

(** X11: restarts are not merged: every [disconnected] event registers a
    restart of its own, 5000 ms after it, and none of them writes to a
    socket. *)
Theorem every_disconnect_schedules_a_restart (reasons : list string) (st : State) :
  let st' := steps ext st (map EvDisconnected reasons) in
  pending st'
  = pending st
    ++ map (λ _, {| set_at := now st; delay := 5000; job := JobRestart |}) reasons
  ∧ broadcasts (trace st') = broadcasts (trace st)
  ∧ now st' = now st.
Proof.
  revert st. induction reasons as [|r rs IH]; intros st; simpl.
  - now rewrite app_nil_r.
  - fold (steps ext (step ext st (EvDisconnected r)) (map EvDisconnected rs)).
    destruct (IH (step ext st (EvDisconnected r))) as (Hp & Hb & Hn).
    rewrite Hp, Hb, Hn. simpl. rewrite broadcasts_app. simpl.
    rewrite <- app_assoc, app_nil_r. repeat split.
Qed.

(** X12: a reset opens the way to one new QR image: the offer that follows
    an [auth_failure], [error] or [disconnected] event is taken, whatever
    the flags were before, and its image is broadcast when the encoder has
    produced it; the offer after that one is dropped, before and after the
    image is broadcast. *)
Theorem reset_allows_next_qr (ev : ClientEvent) (qr qr' url : string) (st : State) :
  is_reset ev = true →
  toDataURL ext qr = Ok url →
  inflight (steps ext st [ev; EvQr qr]) = inflight st ++ [PendingQr qr]
  ∧ broadcasts (trace (complete ext (length (inflight st))
                         (steps ext st [ev; EvQr qr])))
    = broadcasts (trace (step ext st ev)) ++ [("qr", StrArg url)]
  ∧ steps ext st [ev; EvQr qr; EvQr qr'] = steps ext st [ev; EvQr qr]
  ∧ step ext (complete ext (length (inflight st)) (steps ext st [ev; EvQr qr]))
      (EvQr qr')
    = complete ext (length (inflight st)) (steps ext st [ev; EvQr qr]).
Proof.
  intros Hev Hurl. destruct (reset_flags ext ev st Hev) as [Hc Hq].
  assert (Hfree : clientConnected (step ext st ev)
                  || qrGenerated (step ext st ev) = false)
    by now rewrite Hc, Hq.
  assert (Hin : inflight (step ext st ev) = inflight st)
    by (destruct ev; simpl in Hev; try discriminate; reflexivity).
  assert (Hst2 : steps ext st [ev; EvQr qr]
    = set_trace (trace (step ext st ev) ++ [(now (step ext st ev), Log LogScanQr)])
        (set_inflight (inflight st ++ [PendingQr qr])
           (set_qrGenerated true (step ext st ev)))).
  { simpl. rewrite on_qr_taken by exact Hfree. now rewrite Hin. }
  assert (Hk : inflight (steps ext st [ev; EvQr qr]) !! length (inflight st)
               = Some (PendingQr qr)).
  { rewrite Hst2. simpl. rewrite lookup_app_r by lia.
    now rewrite Nat.sub_diag. }
  split; [now rewrite Hst2|]. split; [|split].
  - rewrite (complete_effect ext _ _ _ Hk). simpl. rewrite Hurl.
    rewrite broadcasts_app. simpl. rewrite on_qr_taken by exact Hfree. simpl.
    rewrite broadcasts_app. simpl. now rewrite app_nil_r.
  - change (steps ext st [ev; EvQr qr; EvQr qr'])
      with (step ext (steps ext st [ev; EvQr qr]) (EvQr qr')).
    apply on_qr_ignored. rewrite Hst2. simpl. apply orb_true_r.
  - apply on_qr_ignored. rewrite (complete_effect ext _ _ _ Hk).
    rewrite Hst2. simpl. apply orb_true_r.
Qed.

End Reconnect.

Lemma restart_after_disconnect_witness :
  pending (initial_state 100) = []
  ∧ lifecycle_calls
      (trace (run Demo.ext 1 (exec (on_disconnected "LOGOUT") (initial_state 100))))
    = [(5100, ClientDestroy); (5100, ClientInitialize)].
Proof.
  split; [reflexivity|].
  exact (proj1 (restart_after_disconnect Demo.ext "LOGOUT"
                  (initial_state 100) eq_refl)).
Defined.

Lemma reset_allows_next_qr_witness :
  is_reset (EvError "timeout") = true
  ∧ toDataURL Demo.ext "2@abc" = Ok "data:image/png;base64,2@abc"
  ∧ broadcasts (trace (complete Demo.ext 0
                         (steps Demo.ext
                            (with_flags true true (initial_state 0))
                            [EvError "timeout"; EvQr "2@abc"])))
    = [("error", StrArg "WhatsApp client encountered an issue.");
       ("qr", StrArg "data:image/png;base64,2@abc")].
Proof.
  split; [reflexivity|]. split; [reflexivity|].
  exact (proj1 (proj2 (reset_allows_next_qr Demo.ext (EvError "timeout") "2@abc"
                         "2@def" _ (with_flags true true (initial_state 0))
                         eq_refl eq_refl))).
Defined.

(** ** Pages of contacts *)

Lemma take_add_drop {A} (a b : nat) (l : list A) :
  take (a + b) l = take a l ++ take b (drop a l).
Proof.
  revert l. induction a as [|a IH]; intros l; simpl; [reflexivity|].
  destruct l as [|x l]; simpl; [now rewrite take_nil|]. now rewrite IH.
Qed.

(** X13: pages neither overlap nor skip: the first [n] pages of size
    [pageSize ≥ 1], one after the other, are the first [n * pageSize]
    user-type contacts in their order. *)
Theorem pages_partition_contacts
    (pageSize : Z) (n : nat) (contacts : list Contact.t) :
  1 ≤ pageSize →
  concat (map (λ p, listContacts (Z.of_nat p + 1) pageSize contacts) (seq 0 n))
  = map contact_summary
      (take (n * Z.to_nat pageSize) (List.filter Contact.isUser contacts)).
Proof.
  intros Hs. induction n as [|n IH]; [reflexivity|].
  rewrite seq_S, map_app, concat_app, IH. simpl. rewrite app_nil_r.
  unfold listContacts at 1. rewrite slice_page by lia.
  replace (Z.to_nat ((Z.of_nat n + 1 - 1) * pageSize))
    with (n * Z.to_nat pageSize)%nat by nia.
  rewrite <- map_app, <- take_add_drop. f_equal. f_equal. lia.
Qed.

Lemma pages_partition_contacts_witness :
  1 ≤ 2
  ∧ listContacts 1 2 Demo.contacts ++ listContacts 2 2 Demo.contacts
    = map contact_summary (List.filter Contact.isUser Demo.contacts).
Proof.
  split; [lia|].
  exact (pages_partition_contacts 2 2 Demo.contacts ltac:(lia)).
Defined.

Lemma clamp_index_range len i :
  0 ≤ len → 0 ≤ Js.clamp_index len i ≤ len.
Proof. intros H. unfold Js.clamp_index. destruct (Z.ltb_spec i 0); lia. Qed.

Lemma slice_empty {A} (start stop : Z) (l : list A) :
  Js.clamp_index (Z.of_nat (List.length l)) stop
  ≤ Js.clamp_index (Z.of_nat (List.length l)) start →
  Js.slice start stop l = [].
Proof.
  intros H. unfold Js.slice. cbv zeta.
  set (k := Js.clamp_index (Z.of_nat (List.length l)) start) in *.
  set (final := Js.clamp_index (Z.of_nat (List.length l)) stop) in *.
  replace (Z.to_nat (final - k)) with 0%nat by lia. reflexivity.
Qed.

(** X14: outside the range of the wire format the reply follows
    [Array.prototype.slice]: page 0 and a page size of 0 give the empty
    list, and on page 1 a negative page size gives every user-type contact
    but the last [-pageSize]. *)
Theorem pages_out_of_range (page pageSize : Z) (contacts : list Contact.t) :
  let users := List.filter Contact.isUser contacts in
  (page = 0 → 0 ≤ pageSize → listContacts page pageSize contacts = [])
  ∧ (pageSize = 0 → listContacts page pageSize contacts = [])
  ∧ (page = 1 → pageSize < 0 →
     listContacts page pageSize contacts
     = map contact_summary (take (length users - Z.to_nat (- pageSize)) users)).
Proof.
  intros users. unfold listContacts. fold users.
  pose proof (clamp_index_range (Z.of_nat (List.length users))) as Hrange.
  split; [|split].
  - intros -> Hs. rewrite slice_empty; [reflexivity|].
    replace (0 * pageSize) with 0 by ring.
    specialize (Hrange ((0 - 1) * pageSize) ltac:(lia)).
    unfold Js.clamp_index at 1. simpl. lia.
  - intros ->. rewrite slice_empty; [reflexivity|].
    rewrite !Z.mul_0_r. lia.
  - intros -> Hs. unfold Js.slice, Js.clamp_index.
    replace ((1 - 1) * pageSize) with 0 by ring.
    replace (1 * pageSize) with pageSize by ring.
    replace (pageSize <? 0) with true by (symmetry; apply Z.ltb_lt; lia).
    replace (0 <? 0) with false by reflexivity.
    rewrite Z.min_l by lia. rewrite drop_0. f_equal. f_equal. lia.
Qed.

Lemma pages_out_of_range_witness :
  listContacts 0 2 Demo.contacts = []
  ∧ listContacts 1 (-1) Demo.contacts
    = [ {| cs_name := "Ann"; cs_number := "1" |};
        {| cs_name := "Unknown"; cs_number := "3" |};
        {| cs_name := "Unknown"; cs_number := "4" |} ].
Proof.
  split.
  - exact (proj1 (pages_out_of_range 0 2 Demo.contacts) eq_refl ltac:(lia)).
  - exact (proj2 (proj2 (pages_out_of_range 1 (-1) Demo.contacts))
             eq_refl ltac:(lia)).
Defined.

(** X15: a contact listing is answered to the socket that asked and to no
    other: one [contactsList] reply when the contacts were fetched, one
    [error] reply with a fixed text when the fetch was rejected, the cause
    going to the log only; nothing is broadcast and the state is otherwise
    unchanged. *)
Theorem contacts_reply_to_requester
    (ext : External) (socket : nat) (page pageSize : Z) (st : State) :
  let st' := exec (on_getContacts ext socket page pageSize) st in
  socket_replies (trace st')
  = socket_replies (trace st)
    ++ [match getContacts ext with
        | Ok contacts =>
            (socket, "contactsList",
             ContactsArg (listContacts page pageSize contacts))
        | Err _ => (socket, "error", StrArg "Failed to fetch contacts")
        end]
  ∧ logged (trace st')
    = logged (trace st)
      ++ match getContacts ext with
         | Ok _ => []
         | Err e => [LogContactsError e]
         end
  ∧ broadcasts (trace st') = broadcasts (trace st)
  ∧ (∃ tail, st' = set_trace (trace st ++ tail) st
             ∧ Forall (λ te, receivers st te.2 = [socket] ∨ receivers st te.2 = [])
                      tail).
Proof.
  intros st'. unfold st', on_getContacts. unfold_m.
  destruct (getContacts ext) as [contacts|e]; simpl;
    unfold socket_replies, logged, broadcasts; rewrite ?omap_app; simpl;
    rewrite ?app_nil_r.
  - do 3 (split; [reflexivity|]). eexists. split; [reflexivity|].
    constructor; [now left|constructor].
  - do 3 (split; [reflexivity|]).
    exists [(now st, Log (LogContactsError e));
            (now st, SocketEmit socket "error" (StrArg "Failed to fetch contacts"))].
    split; [unfold set_trace; simpl; now rewrite <- app_assoc|].
    constructor; [now right|]. constructor; [now left|constructor].
Qed.

(** ** The session flags gate nothing but the QR offers *)

Lemma blind_ret {A} (a : A) : flag_blind (mret a).
Proof. intros c q st. reflexivity. Qed.

Lemma blind_await {A} (r : Result A) : flag_blind (await r).
Proof. intros c q st. reflexivity. Qed.

Lemma blind_emit e : flag_blind (emit e).
Proof. intros c q st. reflexivity. Qed.

Lemma blind_setTimeout j d : flag_blind (setTimeout j d).
Proof. intros c q st. reflexivity. Qed.

Lemma blind_start p : flag_blind (start p).
Proof. intros c q st. reflexivity. Qed.

Lemma blind_fromFilePath path : flag_blind (fromFilePath path).
Proof.
  intros c q st. unfold fromFilePath. simpl. now destruct (files st !! path).
Qed.

Lemma blind_unlinkSync path : flag_blind (unlinkSync path).
Proof.
  intros c q st. unfold unlinkSync. simpl. now destruct (files st !! path).
Qed.

Lemma blind_bind {A B} (m : M A) (k : A → M B) :
  flag_blind m → (∀ a, flag_blind (k a)) → flag_blind (m ≫= k).
Proof.
  intros Hm Hk c q st. unfold mbind, M_bind. rewrite Hm.
  destruct (m st) as [[a|e] st1]; simpl; [apply Hk|reflexivity].
Qed.

Lemma blind_try_catch {A} (m : M A) (h : string → M A) :
  flag_blind m → (∀ e, flag_blind (h e)) → flag_blind (try_catch m h).
Proof.
  intros Hm Hh c q st. unfold try_catch. rewrite Hm.
  destruct (m st) as [[a|e] st1]; simpl; [reflexivity|apply Hh].
Qed.

Lemma blind_forEach_from {A} (f : nat → A → M unit) l i :
  (∀ j x, flag_blind (f j x)) → flag_blind (forEach_from i f l).
Proof.
  intros Hf. revert i. induction l as [|x r IH]; intros i; simpl.
  - apply blind_ret.
  - apply blind_bind; [apply Hf | intros _; apply IH].
Qed.

Lemma blind_exec {A} (m : M A) c q st :
  flag_blind m → exec m (with_flags c q st) = with_flags c q (exec m st).
Proof. intros H. unfold exec. now rewrite H. Qed.

Section Blind.

Variable ext : External.

Lemma blind_client_sendMessage chatId content :
  flag_blind (client_sendMessage ext chatId content).
Proof.
  apply blind_bind; [apply blind_emit | intros _; apply blind_await].
Qed.

Lemma blind_post_send body : flag_blind (post_send body).
Proof.
  unfold post_send.
  destruct (negb _ || negb _); [apply blind_emit|].
  apply blind_bind; [apply blind_emit | intros _].
  apply blind_bind; [|intros _; apply blind_emit].
  apply blind_forEach_from. intros j x. apply blind_setTimeout.
Qed.

Lemma blind_post_schedule body : flag_blind (post_schedule body).
Proof.
  intros c q st. unfold post_schedule.
  destruct (negb _ || negb _ || negb _); [reflexivity|].
  unfold_m. simpl.
  destruct (default 0 (ScheduleReq.timestamp body) - now st <=? 0); reflexivity.
Qed.

Lemma blind_get_list_groups : flag_blind (get_list_groups ext).
Proof.
  apply blind_try_catch; [|intros e; apply blind_emit].
  apply blind_bind; [apply blind_await | intros chats; apply blind_emit].
Qed.

Lemma blind_post_send_group body : flag_blind (post_send_group ext body).
Proof.
  unfold post_send_group.
  destruct (negb _ || negb _); [apply blind_emit|].
  apply blind_try_catch.
  - apply blind_bind; [apply blind_await | intros chats].
    destruct (List.find _ chats); [|apply blind_emit].
    apply blind_bind; [apply blind_client_sendMessage | intros _; apply blind_emit].
  - intros e. apply blind_bind; [apply blind_emit | intros _; apply blind_emit].
Qed.

Lemma blind_post_send_media req : flag_blind (post_send_media ext req).
Proof.
  unfold post_send_media, upload_single, send_media_handler.
  apply blind_bind.
  { destruct (MediaReq.file req); [|apply blind_ret]. intros c q st. reflexivity. }
  intros _. destruct (MediaReq.file req) as [u|]; [|apply blind_emit].
  destruct (negb _); [apply blind_emit|].
  apply blind_try_catch.
  - apply blind_bind; [apply blind_await | intros [serialized|]];
      [|apply blind_emit].
    apply blind_bind; [apply blind_fromFilePath | intros media].
    apply blind_bind; [apply blind_client_sendMessage | intros _].
    apply blind_bind; [apply blind_unlinkSync | intros _; apply blind_emit].
  - intros e. apply blind_bind; [apply blind_emit | intros _; apply blind_emit].
Qed.

Lemma blind_on_getContacts socket page pageSize :
  flag_blind (on_getContacts ext socket page pageSize).
Proof.
  apply blind_try_catch.
  - apply blind_bind; [apply blind_await | intros contacts; apply blind_emit].
  - intros e. apply blind_bind; [apply blind_emit | intros _; apply blind_emit].
Qed.

Lemma blind_fire j : flag_blind (fire ext j).
Proof.
  destruct j as [number message|numbers message|]; simpl.
  - apply blind_bind; [apply blind_emit | intros _; apply blind_start].
  - apply blind_forEach_from; intros _ x.
    apply blind_bind; [apply blind_emit | intros _; apply blind_start].
  - unfold restartClient. repeat (apply blind_bind; [apply blind_emit | intros _]).
    destruct (destroy ext); apply blind_emit.
Qed.

Lemma tick_with_flags c q st :
  tick ext (with_flags c q st) = with_flags c q (tick ext st).
Proof.
  unfold tick. simpl. destruct (pick (pending st)) as [[t rest]|]; [|reflexivity].
  apply (blind_exec (fire ext (job t)) c q
           (set_pending rest (set_now (Z.max (now st) (due t)) st))).
  apply blind_fire.
Qed.

(** X16: no HTTP handler, socket handler, timer or callback of a waiting
    call looks at [clientConnected] or [qrGenerated], or changes them: run with any other flags, each does
    exactly the same and leaves these flags in place.  In particular
    messages are accepted, scheduled and attempted while the client is
    disconnected. *)
Theorem session_flags_gate_no_request (connected qr : bool) (st : State) :
  (∀ body, exec (post_send body) (with_flags connected qr st)
           = with_flags connected qr (exec (post_send body) st))
  ∧ (∀ body, exec (post_schedule body) (with_flags connected qr st)
             = with_flags connected qr (exec (post_schedule body) st))
  ∧ exec (get_list_groups ext) (with_flags connected qr st)
    = with_flags connected qr (exec (get_list_groups ext) st)
  ∧ (∀ body, exec (post_send_group ext body) (with_flags connected qr st)
             = with_flags connected qr (exec (post_send_group ext body) st))
  ∧ (∀ req, exec (post_send_media ext req) (with_flags connected qr st)
            = with_flags connected qr (exec (post_send_media ext req) st))
  ∧ (∀ socket page pageSize,
       exec (on_getContacts ext socket page pageSize) (with_flags connected qr st)
       = with_flags connected qr (exec (on_getContacts ext socket page pageSize) st))
  ∧ (∀ n, run ext n (with_flags connected qr st)
          = with_flags connected qr (run ext n st))
  ∧ (∀ k, complete ext k (with_flags connected qr st)
          = with_flags connected qr (complete ext k st)).
Proof.
  repeat split; intros.
  - apply blind_exec, blind_post_send.
  - apply blind_exec, blind_post_schedule.
  - apply blind_exec, blind_get_list_groups.
  - apply blind_exec, blind_post_send_group.
  - apply blind_exec, blind_post_send_media.
  - apply blind_exec, blind_on_getContacts.
  - revert st. induction n as [|n IH]; intros st; [reflexivity|].
    simpl. now rewrite tick_with_flags, IH.
  - unfold complete. simpl. destruct (inflight st !! k) as [p|]; [|reflexivity].
    apply (blind_exec (callback ext p) connected qr
             (set_inflight (delete k (inflight st)) st)).
    destruct p as [qr0|kind number message]; simpl.
    + unfold qr_encoded. destruct (toDataURL ext qr0);
        [apply blind_emit | apply blind_ret].
    + apply blind_try_catch; [|intros e; apply blind_emit].
      apply blind_bind; [apply blind_await | intros _; apply blind_emit].
Qed.

End Blind.

(** ** Sends and their outcomes, in whatever order the turns come *)

Lemma pick_Permutation ts t rest : pick ts = Some (t, rest) → ts ≡ₚ t :: rest.
Proof.
  revert t rest. induction ts as [|u ts IH]; intros t rest; simpl; [discriminate|].
  destruct (pick ts) as [[v r']|] eqn:E.
  - destruct (due u <=? due v); intros [= <- <-]; [reflexivity|].
    rewrite (IH v r' eq_refl). apply Permutation_swap.
  - apply pick_None in E as ->. now intros [= <- <-].
Qed.

Lemma calls_app tr1 tr2 : calls (tr1 ++ tr2) = calls tr1 ++ calls tr2.
Proof. apply omap_app. Qed.

Lemma outcome_lines_app tr1 tr2 :
  outcome_lines (tr1 ++ tr2) = outcome_lines tr1 ++ outcome_lines tr2.
Proof. apply omap_app. Qed.

Section Ledger.

Variable ext : External.

Lemma calls_job_events t j :
  calls (map (λ e, (t, e)) (job_events ext j)) = job_calls j.
Proof.
  destruct j as [number message|numbers message|]; simpl.
  - reflexivity.
  - induction numbers as [|x r IH]; [reflexivity|].
    simpl. unfold calls in *. simpl. now rewrite IH.
  - now destruct (destroy ext).
Qed.

Lemma outcome_lines_job_events t j :
  outcome_lines (map (λ e, (t, e)) (job_events ext j)) = [].
Proof.
  destruct j as [number message|numbers message|]; simpl.
  - reflexivity.
  - induction numbers as [|x r IH]; [reflexivity|exact IH].
  - now destruct (destroy ext).
Qed.

Lemma calls_pending_events t p :
  calls (map (λ e, (t, e)) (pending_events ext p)) = [].
Proof.
  destruct p as [qr|[|] number message]; simpl; [now destruct (toDataURL ext qr)|..];
    reflexivity.
Qed.

Lemma outcome_lines_pending_events t p :
  outcome_lines (map (λ e, (t, e)) (pending_events ext p)) = owed_line ext p.
Proof.
  destruct p as [qr|[|] number message]; simpl.
  - now destruct (toDataURL ext qr).
  - unfold send_one_log. now destruct (sendMessage ext number (Text message)).
  - unfold send_all_log. now destruct (sendMessage ext number (Text message)).
Qed.

(** An event of the messaging client calls no send, logs no outcome and
    leaves the sends under way as they are. *)
Lemma step_ledger ev st :
  calls (trace (step ext st ev)) = calls (trace st)
  ∧ outcome_lines (trace (step ext st ev)) = outcome_lines (trace st)
  ∧ calls_to_come (step ext st ev) = calls_to_come st
  ∧ lines_to_come ext (step ext st ev) = lines_to_come ext st.
Proof.
  destruct ev as [qr| | | |].
  - destruct (clientConnected st || qrGenerated st) eqn:E.
    + now rewrite on_qr_ignored.
    + rewrite on_qr_taken by exact E. unfold calls_to_come, lines_to_come. simpl.
      rewrite calls_app, outcome_lines_app, bind_app. simpl.
      now rewrite !app_nil_r.
  - unfold step, calls_to_come, lines_to_come. simpl.
    rewrite !calls_app, !outcome_lines_app. simpl. now rewrite !app_nil_r.
  - unfold step, calls_to_come, lines_to_come. simpl.
    rewrite !calls_app, !outcome_lines_app. simpl. now rewrite !app_nil_r.
  - unfold step, calls_to_come, lines_to_come. simpl.
    rewrite !calls_app, !outcome_lines_app. simpl. now rewrite !app_nil_r.
  - unfold step, calls_to_come, lines_to_come. simpl.
    rewrite !calls_app, !outcome_lines_app, !bind_app. simpl.
    now rewrite !app_nil_r.
Qed.

(** Every send that a pending timer will call is called once when the
    timer fires, and nothing else calls or drops one. *)
Lemma calls_ledger_turn st t :
  calls (trace (turn ext st t)) ++ calls_to_come (turn ext st t)
  ≡ₚ calls (trace st) ++ calls_to_come st.
Proof.
  destruct t as [ev| |k]; simpl.
  - destruct (step_ledger ev st) as (-> & _ & -> & _). reflexivity.
  - destruct (pick (pending st)) as [[tm rest]|] eqn:E.
    + rewrite (tick_effect ext st tm rest E). unfold calls_to_come. simpl.
      rewrite calls_app, calls_job_events, <- app_assoc.
      apply Permutation_app_head.
      rewrite (pick_Permutation _ _ _ E). now rewrite bind_cons.
    + now rewrite tick_idle.
  - destruct (inflight st !! k) as [p|] eqn:E.
    + rewrite (complete_effect ext k p st E). unfold calls_to_come. simpl.
      now rewrite calls_app, calls_pending_events, app_nil_r.
    + now rewrite complete_idle.
Qed.

(** Every send called by a timer logs its outcome once, when it settles,
    and nothing else logs or drops one. *)
Lemma lines_ledger_turn st t :
  outcome_lines (trace (turn ext st t)) ++ lines_to_come ext (turn ext st t)
  ≡ₚ outcome_lines (trace st) ++ lines_to_come ext st.
Proof.
  destruct t as [ev| |k]; simpl.
  - destruct (step_ledger ev st) as (_ & -> & _ & ->). reflexivity.
  - destruct (pick (pending st)) as [[tm rest]|] eqn:E.
    + rewrite (tick_effect ext st tm rest E). unfold lines_to_come. simpl.
      rewrite outcome_lines_app, outcome_lines_job_events, app_nil_r.
      apply Permutation_app_head.
      rewrite (pick_Permutation (pending st) _ _ E).
      rewrite bind_cons, bind_app, <- !app_assoc. reflexivity.
    + now rewrite tick_idle.
  - destruct (inflight st !! k) as [p|] eqn:E.
    + rewrite (complete_effect ext k p st E). unfold lines_to_come. simpl.
      rewrite outcome_lines_app, outcome_lines_pending_events, <- app_assoc.
      apply Permutation_app_head.
      rewrite (delete_Permutation (inflight st) _ _ E) at 2.
      rewrite bind_cons, <- app_assoc. reflexivity.
    + now rewrite complete_idle.
Qed.

Lemma ledger_turns ts st :
  calls (trace (turns ext st ts)) ++ calls_to_come (turns ext st ts)
  ≡ₚ calls (trace st) ++ calls_to_come st
  ∧ outcome_lines (trace (turns ext st ts)) ++ lines_to_come ext (turns ext st ts)
    ≡ₚ outcome_lines (trace st) ++ lines_to_come ext st.
Proof.
  revert st. induction ts as [|t ts IH]; intros st; [split; reflexivity|].
  change (turns ext st (t :: ts)) with (turns ext (turn ext st t) ts).
  destruct (IH (turn ext st t)) as [-> ->].
  split; [apply calls_ledger_turn | apply lines_ledger_turn].
Qed.

(** A waiting send that settles logs its own outcome and touches nothing
    else: the timers and the other waiting sends stay as they are. *)
Lemma complete_send k kind number message st :
  inflight st !! k = Some (PendingSend kind number message) →
  complete ext k st
  = set_trace
      (trace st
       ++ [(now st,
            Log match sendMessage ext number (Text message) with
                | Ok _ => match kind with
                          | Immediate => LogSent number
                          | Scheduled => LogScheduledSent number
                          end
                | Err e => LogFailed number e
                end)])
      (set_inflight (delete k (inflight st)) st).
Proof.
  intros H. rewrite (complete_effect ext k _ st H).
  destruct kind; simpl; unfold send_one_log, send_all_log;
    now destruct (sendMessage ext number (Text message)).
Qed.

Lemma send_timers_calls t0 s msg ns :
  send_timers t0 s msg ns ≫= (λ t, job_calls (job t))
  = map (λ num, (normalize num, Text msg)) ns.
Proof.
  unfold send_timers. induction ns as [|x r IH] using rev_ind; [reflexivity|].
  rewrite imap_app, bind_app, map_app, IH. reflexivity.
Qed.

Lemma send_timers_lines t0 s msg ns :
  send_timers t0 s msg ns ≫= (λ t, job_pendings (job t) ≫= owed_line ext)
  = map (λ num, send_one_log ext (normalize num) msg) ns.
Proof.
  unfold send_timers. induction ns as [|x r IH] using rev_ind; [reflexivity|].
  rewrite imap_app, bind_app, map_app, IH. reflexivity.
Qed.

(** X17: for an accepted /send request with no other send under way, in
    whatever order the timers fire and the sends settle, and whatever
    events of the messaging client come in between: each recipient's send
    is called once, by its own timer, and logs one line when it settles,
    "sent" if it resolved and "failed" with its error if it was rejected;
    a settling send touches neither the timers nor the other waiting
    sends, so that a rejected send stops none of the others and none is
    retried. *)
Theorem send_outcomes_are_independent
    (ns : list string) (msg : string) (d : option Z) (st : State)
    (ts : list Turn) :
  let st' := exec (post_send {| SendReq.numbers := Some ns;
                                SendReq.message := Some msg;
                                SendReq.delay := d |}) st in
  let final := turns ext st' ts in
  let outcome (num : string) :=
    match sendMessage ext (normalize num) (Text msg) with
    | Ok _ => LogSent (normalize num)
    | Err e => LogFailed (normalize num) e
    end in
  Js.truthy_string msg = true →
  pending st = [] →
  inflight st = [] →
  calls (trace final) ++ calls_to_come final
  ≡ₚ calls (trace st) ++ map (λ num, (normalize num, Text msg)) ns
  ∧ outcome_lines (trace final) ++ lines_to_come ext final
    ≡ₚ outcome_lines (trace st) ++ map outcome ns
  ∧ (pending final = [] → inflight final = [] →
     calls (trace final)
     ≡ₚ calls (trace st) ++ map (λ num, (normalize num, Text msg)) ns
     ∧ outcome_lines (trace final) ≡ₚ outcome_lines (trace st) ++ map outcome ns)
  ∧ (∀ k number message,
       inflight final !! k = Some (PendingSend Immediate number message) →
       complete ext k final
       = set_trace
           (trace final
            ++ [(now final,
                 Log match sendMessage ext number (Text message) with
                     | Ok _ => LogSent number
                     | Err e => LogFailed number e
                     end)])
           (set_inflight (delete k (inflight final)) final)).
Proof.
  intros st' final outcome Hmsg Hnil Hin.
  assert (Hst' : calls (trace st') ++ calls_to_come st'
                 = calls (trace st) ++ map (λ num, (normalize num, Text msg)) ns
               ∧ outcome_lines (trace st') ++ lines_to_come ext st'
                 = outcome_lines (trace st) ++ map outcome ns).
  { unfold st', exec. rewrite post_send_accepted by exact Hmsg.
    unfold calls_to_come, lines_to_come.
    cbn [snd trace pending inflight set_trace set_pending].
    rewrite Hnil, Hin. cbn [app]. rewrite calls_app, outcome_lines_app.
    rewrite send_timers_calls, send_timers_lines. simpl.
    now rewrite !app_nil_r. }
  destruct Hst' as [Hc Hl].
  destruct (ledger_turns ts st') as [Lc Ll]. fold final in Lc, Ll.
  rewrite Hc in Lc. rewrite Hl in Ll.
  split; [exact Lc|]. split; [exact Ll|]. split.
  - intros Hp Hi. unfold calls_to_come in Lc. unfold lines_to_come in Ll.
    rewrite Hp in Lc. rewrite Hp, Hi in Ll. simpl in Lc, Ll.
    rewrite app_nil_r in Lc, Ll. split; assumption.
  - intros k number message Hk. exact (complete_send k _ number message _ Hk).
Qed.

Lemma scheduled_lines msg (l : list string) :
  map (λ x, PendingSend Scheduled x msg) l ≫= owed_line ext
  = map (λ x, send_all_log ext x msg) l.
Proof.
  induction l as [|x r IH]; [reflexivity|].
  cbn [map]. now rewrite bind_cons, IH.
Qed.

(** X18: when the timer of an accepted /schedule request fires, with no
    other send under way, a send is called for every recipient in the order
    of the list, all in that one turn and before any outcome is logged;
    afterwards, in whatever order the sends settle, each logs its own line,
    "sent" if it resolved and "failed" with its error if it was rejected,
    and a rejected send stops none of the others. *)
Theorem schedule_outcomes_are_independent
    (ns : list string) (msg : string) (stamp : Z) (st : State)
    (ts : list Turn) :
  let st' := exec (post_schedule {| ScheduleReq.numbers := Some ns;
                                    ScheduleReq.message := Some msg;
                                    ScheduleReq.timestamp := Some stamp |}) st in
  let fired := run ext 1 st' in
  let final := turns ext fired ts in
  let outcome (num : string) :=
    match sendMessage ext (normalize num) (Text msg) with
    | Ok _ => LogScheduledSent (normalize num)
    | Err e => LogFailed (normalize num) e
    end in
  Js.truthy_string msg = true →
  stamp ≠ 0 →
  now st < stamp →
  pending st = [] →
  inflight st = [] →
  calls (trace fired)
  = calls (trace st) ++ map (λ num, (normalize num, Text msg)) ns
  ∧ outcome_lines (trace fired) = outcome_lines (trace st)
  ∧ inflight fired = map (λ num, PendingSend Scheduled (normalize num) msg) ns
  ∧ pending fired = []
  ∧ outcome_lines (trace final) ++ lines_to_come ext final
    ≡ₚ outcome_lines (trace st) ++ map outcome ns
  ∧ (pending final = [] → inflight final = [] →
     outcome_lines (trace final) ≡ₚ outcome_lines (trace st) ++ map outcome ns)
  ∧ (∀ k number message,
       inflight final !! k = Some (PendingSend Scheduled number message) →
       complete ext k final
       = set_trace
           (trace final
            ++ [(now final,
                 Log match sendMessage ext number (Text message) with
                     | Ok _ => LogScheduledSent number
                     | Err e => LogFailed number e
                     end)])
           (set_inflight (delete k (inflight final)) final)).
Proof.
  intros st' fired final outcome Hmsg Hstamp Hlt Hnil Hin.
  assert (Hfired : fired
    = exec (fire ext (JobSendAll (map normalize ns) msg))
        (set_pending []
           (set_now (Z.max (now st) (now st + Js.timeout_delay (stamp - now st)))
              st'))).
  { unfold fired, st', exec. rewrite post_schedule_present by assumption.
    replace (stamp - now st <=? 0) with false by (symmetry; apply Z.leb_gt; lia).
    rewrite Hnil. cbn [run]. unfold tick.
    cbn [snd pending set_trace set_pending app pick job now]. reflexivity. }
  assert (Hst' : st'
    = set_trace
        (trace st
         ++ [(now st, Response 200 (BodySuccess "Message scheduled successfully."))])
        (set_pending
           [{| set_at := now st; delay := stamp - now st;
               job := JobSendAll (map normalize ns) msg |}] st)).
  { unfold st', exec. rewrite post_schedule_present by assumption.
    replace (stamp - now st <=? 0) with false by (symmetry; apply Z.leb_gt; lia).
    now rewrite Hnil. }
  rewrite fire_send_all in Hfired.
  assert (Hsent : ∀ t l, outcome_lines
                           (map (λ x, (t, SendMessage x (Text msg))) l) = []).
  { intros t l. induction l as [|x r IH]; [reflexivity|exact IH]. }
  assert (Hlines : outcome_lines (trace fired) ++ lines_to_come ext fired
                   = outcome_lines (trace st) ++ map outcome ns).
  { rewrite Hfired, Hst'. unfold lines_to_come.
    cbn [trace inflight pending set_trace set_pending set_inflight set_now now].
    rewrite Hin. cbn [app]. rewrite !outcome_lines_app, Hsent.
    rewrite scheduled_lines, map_map. simpl. now rewrite !app_nil_r. }
  split; [|split; [|split; [|split; [|split; [|split]]]]].
  - rewrite Hfired, Hst'. simpl. rewrite !calls_app. simpl. rewrite app_nil_r.
    f_equal. clear. induction ns as [|x r IH]; [reflexivity|].
    simpl. unfold calls in *. simpl. now rewrite IH.
  - rewrite Hfired, Hst'.
    cbn [trace inflight pending set_trace set_pending set_inflight set_now now].
    rewrite !outcome_lines_app, Hsent. simpl. now rewrite !app_nil_r.
  - rewrite Hfired, Hst'. simpl. rewrite Hin. simpl. now rewrite map_map.
  - now rewrite Hfired.
  - destruct (ledger_turns ts fired) as [_ Ll]. fold final in Ll.
    now rewrite Hlines in Ll.
  - intros Hp Hi. destruct (ledger_turns ts fired) as [_ Ll]. fold final in Ll.
    rewrite Hlines in Ll. unfold lines_to_come in Ll. rewrite Hp, Hi in Ll.
    simpl in Ll. now rewrite app_nil_r in Ll.
  - intros k number message Hk. exact (complete_send k _ number message _ Hk).
Qed.

(** Connection and flags under turns that clear nothing. *)
Lemma connected_turn st t :
  reset_free [t] = true →
  clientConnected st = true → clientConnected (turn ext st t) = true.
Proof.
  intros Hfree Hc. destruct t as [ev| |k]; simpl.
  - destruct ev as [qr| | | |]; simpl in Hfree; try discriminate.
    + rewrite on_qr_ignored; [exact Hc|]. now rewrite Hc.
    + reflexivity.
  - destruct (pick (pending st)) as [[tm rest]|] eqn:E.
    + now rewrite (tick_effect ext st tm rest E).
    + now rewrite tick_idle.
  - destruct (inflight st !! k) as [p|] eqn:E.
    + now rewrite (complete_effect ext k p st E).
    + now rewrite complete_idle.
Qed.

(** X19: once the client is ready no QR offer is taken until an
    [auth_failure], [error] or [disconnected] event: no encoding is
    started, and the only QR images that can still be broadcast are those
    of the encodings already waiting, none if none is waiting. *)
Theorem connected_blocks_qr (ts : list Turn) (st : State) :
  clientConnected st = true →
  reset_free ts = true →
  clientConnected (turns ext st ts) = true
  ∧ (length (qr_broadcasts (trace (turns ext st ts)))
     + length (qr_waiting (inflight (turns ext st ts)))
     ≤ length (qr_broadcasts (trace st)) + length (qr_waiting (inflight st)))%nat
  ∧ (qr_waiting (inflight st) = [] →
     qr_broadcasts (trace (turns ext st ts)) = qr_broadcasts (trace st)
     ∧ qr_waiting (inflight (turns ext st ts)) = []).
Proof.
  intros Hc Hfree.
  assert (Hconn : clientConnected (turns ext st ts) = true).
  { revert st Hc Hfree. induction ts as [|t ts IH]; intros st Hc Hfree; [exact Hc|].
    simpl in Hfree. apply andb_prop in Hfree as [Ht Hts].
    change (turns ext st (t :: ts)) with (turns ext (turn ext st t) ts).
    apply IH; [|exact Hts]. apply connected_turn; [|exact Hc].
    simpl. now rewrite Ht. }
  pose proof (qr_budget_turns ext ts st Hfree) as Hb.
  unfold qr_budget, offer_open in Hb. rewrite Hc, Hconn in Hb. simpl in Hb.
  split; [exact Hconn|]. split; [lia|].
  intros Hw. rewrite Hw in Hb. simpl in Hb.
  destruct (turns_trace ext ts st) as [tail Htail].
  rewrite Htail, qr_broadcasts_app, length_app in Hb.
  assert (Hq : qr_broadcasts tail = []) by (apply length_zero_iff_nil; lia).
  split.
  - now rewrite Htail, qr_broadcasts_app, Hq, app_nil_r.
  - apply length_zero_iff_nil. lia.
Qed.

End Ledger.

Lemma send_outcomes_are_independent_witness :
  let final := turns Demo.ext
                 (exec (post_send {| SendReq.numbers := Some ["1"; "x"; "2"];
                                     SendReq.message := Some "hi";
                                     SendReq.delay := Some 0 |}) (initial_state 0))
                 [Timer_fires; Timer_fires; Completes 1; Timer_fires;
                  Completes 1; Completes 0] in
  Js.truthy_string "hi" = true
  ∧ pending (initial_state 0) = [] ∧ inflight (initial_state 0) = []
  ∧ pending final = [] ∧ inflight final = []
  ∧ outcome_lines (trace final)
    = [LogFailed "@c.us" "invalid wid"; LogSent "2@c.us"; LogSent "1@c.us"]
  ∧ outcome_lines (trace final)
    ≡ₚ [LogSent "1@c.us"; LogFailed "@c.us" "invalid wid"; LogSent "2@c.us"].
Proof.
  intros final. do 5 (split; [reflexivity|]). split; [reflexivity|].
  exact (proj2 (proj1 (proj2 (proj2
           (send_outcomes_are_independent Demo.ext ["1"; "x"; "2"] "hi" (Some 0)
              (initial_state 0)
              [Timer_fires; Timer_fires; Completes 1; Timer_fires;
               Completes 1; Completes 0] eq_refl eq_refl eq_refl)))
         eq_refl eq_refl)).
Defined.

Lemma schedule_outcomes_are_independent_witness :
  let fired := run Demo.ext 1
                 (exec (post_schedule
                          {| ScheduleReq.numbers := Some ["x"; "555-1234"];
                             ScheduleReq.message := Some "hi";
                             ScheduleReq.timestamp := Some 60 |})
                       (initial_state 0)) in
  Js.truthy_string "hi" = true ∧ 60 ≠ 0 ∧ now (initial_state 0) < 60
  ∧ pending (initial_state 0) = [] ∧ inflight (initial_state 0) = []
  ∧ calls (trace fired) = [("@c.us", Text "hi"); ("5551234@c.us", Text "hi")]
  ∧ outcome_lines (trace (turns Demo.ext fired [Completes 1; Completes 0]))
    = [LogScheduledSent "5551234@c.us"; LogFailed "@c.us" "invalid wid"].
Proof.
  intros fired. split; [reflexivity|]. split; [discriminate|].
  split; [reflexivity|]. split; [reflexivity|]. split; [reflexivity|].
  split; [|reflexivity].
  exact (proj1 (schedule_outcomes_are_independent Demo.ext ["x"; "555-1234"] "hi"
                  60 (initial_state 0) [] eq_refl ltac:(discriminate) eq_refl
                  eq_refl eq_refl)).
Defined.

Lemma connected_blocks_qr_witness :
  let st := step Demo.ext (initial_state 0) EvReady in
  let ts := [Client (EvQr "2@abc"); Timer_fires; Client EvReady;
             Client (EvQr "2@def"); Completes 0] in
  clientConnected st = true ∧ reset_free ts = true
  ∧ qr_waiting (inflight st) = []
  ∧ qr_broadcasts (trace (turns Demo.ext st ts)) = qr_broadcasts (trace st).
Proof.
  intros st ts. split; [reflexivity|]. split; [reflexivity|].
  split; [reflexivity|].
  exact (proj1 (proj2 (proj2 (connected_blocks_qr Demo.ext ts st eq_refl eq_refl))
                  eq_refl)).
Defined.

(** ** What the HTTP handlers leave alone *)

Lemma omap_all_None {A B} (f : A → option B) (l : list A) :
  Forall (λ x, f x = None) l → omap f l = [].
Proof.
  induction 1 as [|x l Hx _ IH]; [reflexivity|].
  change (omap f (x :: l)) with (match f x with
                                 | Some y => y :: omap f l
                                 | None => omap f l
                                 end).
  now rewrite Hx.
Qed.

Lemma filter_all_false {A} (f : A → bool) (l : list A) :
  Forall (λ x, f x = false) l → List.filter f l = [].
Proof.
  induction 1 as [|x l Hx _ IH]; [reflexivity|]. simpl. now rewrite Hx.
Qed.

Lemma http_only_intro st tail p f :
  forallb (λ te, http_event te.2) tail = true →
  http_only st (set_trace (trace st ++ tail) (set_pending p (set_files f st))).
Proof.
  intros H. unfold http_only. simpl.
  split; [reflexivity|]. split; [reflexivity|].
  assert (Hall : Forall (λ te : Z * Event, http_event te.2 = true) tail).
  { apply Forall_forall. intros te Hin. apply list_elem_of_In in Hin.
    revert te Hin. now apply List.forallb_forall. }
  unfold broadcasts, socket_replies, lifecycle_calls.
  rewrite !omap_app, List.filter_app.
  rewrite (omap_all_None _ tail), (omap_all_None _ tail), (filter_all_false _ tail).
  - now rewrite !app_nil_r.
  - eapply Forall_impl; [exact Hall|]. intros [t e] He. now destruct e.
  - eapply Forall_impl; [exact Hall|]. intros [t e] He. now destruct e.
  - eapply Forall_impl; [exact Hall|]. intros [t e] He. now destruct e.
Qed.

Lemma set_trace_as_http st tail :
  set_trace (trace st ++ tail) st
  = set_trace (trace st ++ tail) (set_pending (pending st) (set_files (files st) st)).
Proof. now destruct st. Qed.

(** X20: no HTTP handler writes to a socket, restarts the client or moves the
    clock: whatever the request, it only logs, answers and calls
    [sendMessage]; and only /send-media changes the files. *)
Theorem http_handlers_leave_sockets_alone (ext : External) (st : State) :
  (∀ body, http_only st (exec (post_send body) st)
           ∧ files (exec (post_send body) st) = files st)
  ∧ (∀ body, http_only st (exec (post_schedule body) st)
             ∧ files (exec (post_schedule body) st) = files st)
  ∧ (http_only st (exec (get_list_groups ext) st)
     ∧ files (exec (get_list_groups ext) st) = files st
     ∧ pending (exec (get_list_groups ext) st) = pending st
     ∧ attempts (trace (exec (get_list_groups ext) st)) = attempts (trace st))
  ∧ (∀ body, http_only st (exec (post_send_group ext body) st)
             ∧ files (exec (post_send_group ext body) st) = files st)
  ∧ (∀ req, http_only st (exec (post_send_media ext req) st)).
Proof.
  split; [|split; [|split; [|split]]].
  - intros body.
    destruct (post_send_cases body st)
      as [[_ ->]|(ns & msg & _ & _ & _ & ->)]; (split; [|reflexivity]).
    + rewrite set_trace_as_http. now apply http_only_intro.
    + apply (http_only_intro st _ _ (files st)). reflexivity.
  - intros body.
    destruct (post_schedule_cases body st)
      as [[_ ->]|(ns & msg & ts & _ & _ & _ & _ & _ & [[_ ->]|[_ ->]])];
      (split; [|reflexivity]).
    + rewrite set_trace_as_http. now apply http_only_intro.
    + rewrite set_trace_as_http. now apply http_only_intro.
    + apply (http_only_intro st _ _ (files st)). reflexivity.
  - assert (Hcases : ∃ r, exec (get_list_groups ext) st
                          = set_trace (trace st ++ [(now st, Response r.1 r.2)]) st).
    { unfold get_list_groups. unfold_m.
      destruct (getChats ext) as [chats|e];
        [exists (200, BodyGroups (map Chat.name (List.filter Chat.isGroup chats)))
        |exists (500, BodyError e)]; reflexivity. }
    destruct Hcases as [r ->].
    split; [rewrite set_trace_as_http; now apply http_only_intro|].
    simpl. rewrite attempts_app. simpl. now rewrite app_nil_r.
  - intros body.
    destruct (post_send_group_cases ext body st)
      as [->|(g & m & _ & _ & _ & _ &
              [(e & _ & ->)|[(chats & _ & _ & ->)|(chats & group & _ & _ & ->)]])];
      (split; [|reflexivity]); rewrite set_trace_as_http;
      apply http_only_intro; try reflexivity.
    now destruct (sendMessage ext (Chat.id_serialized group) (Text m)).
  - intros req.
    destruct (post_send_media_cases ext req st)
      as [(files' & _ & -> & _)|(u & number & _ & _ & Hn & ->)].
    + apply (http_only_intro st _ (pending st) files'). reflexivity.
    + rewrite send_media_handler_stored; [|apply lookup_insert_eq|exact Hn].
      destruct (getNumberId ext number) as [[serialized|]|e]; cbv zeta;
        [destruct (sendMessage ext serialized _)| |].
      * apply (http_only_intro st _ (pending st)
                 (delete (upload_path u)
                    (<[upload_path u := MediaReq.data u]> (files st)))).
        reflexivity.
      * apply (http_only_intro st _ (pending st)
                 (<[upload_path u := MediaReq.data u]> (files st))).
        reflexivity.
      * apply (http_only_intro st _ (pending st)
                 (<[upload_path u := MediaReq.data u]> (files st))).
        reflexivity.
      * apply (http_only_intro st _ (pending st)
                 (<[upload_path u := MediaReq.data u]> (files st))).
        reflexivity.
Qed.
